(** * The blog's content pipeline: slug script, collection schema, pages

    A shallow embedding of the code of the repository:
    - the [blog new-post] helper of [flake.nix] (slug derivation and the
      file it writes);
    - the collection schema of [src/content/config.ts];
    - the frontmatter scripts and templates of [src/pages/index.astro],
      [src/pages/blog/index.astro] and [src/pages/blog/[...slug].astro],
      with the two layouts they use.

    Text is kept as [string] (one [ascii] per byte), JavaScript time values
    as [Z] (milliseconds since the epoch), the script's file system as a
    [gmap] from path to content, and JavaScript arrays as cells of a small
    heap so that [Array.prototype.sort] keeps its in-place behaviour. What
    the script takes from its surroundings is a parameter: the locale of
    the text tools, whether a file can be opened for writing, and what
    [npm] does. *)

From Stdlib Require Import ZArith String Ascii.
From stdpp Require Import base strings list gmap sorting.

Local Open Scope string_scope.
Set Warnings "-register-all,-clear-no-such-hyp".

(** ** Characters and lines *)

Module Shell.

Definition newline : ascii := "010"%char.
Definition hyphen : ascii := "-"%char.

Definition is_upper (c : ascii) : bool :=
  (65 <=? nat_of_ascii c)%nat && (nat_of_ascii c <=? 90)%nat.

Definition is_lower (c : ascii) : bool :=
  (97 <=? nat_of_ascii c)%nat && (nat_of_ascii c <=? 122)%nat.

Definition is_digit (c : ascii) : bool :=
  (48 <=? nat_of_ascii c)%nat && (nat_of_ascii c <=? 57)%nat.

Definition is_hyphen (c : ascii) : bool := Ascii.eqb c hyphen.
Definition is_newline (c : ascii) : bool := Ascii.eqb c newline.

(** The bracket expression [[a-z0-9]] on ASCII. *)
Definition in_a_z_0_9 (c : ascii) : bool := is_lower c || is_digit c.

(** A byte below 128. *)
Definition is_ascii (c : ascii) : bool := (nat_of_ascii c <? 128)%nat.

Fixpoint map_string (f : ascii -> ascii) (s : string) : string :=
  match s with
  | EmptyString => EmptyString
  | String c s' => String (f c) (map_string f s')
  end.

Fixpoint forallb_string (p : ascii -> bool) (s : string) : bool :=
  match s with
  | EmptyString => true
  | String c s' => p c && forallb_string p s'
  end.

Fixpoint existsb_string (p : ascii -> bool) (s : string) : bool :=
  match s with
  | EmptyString => false
  | String c s' => p c || existsb_string p s'
  end.

(** A pipe carries lines: every element of the list is one line of the
    stream, written out with a newline after it. *)
Definition lines := list string.

(** The lines of [s] followed by a newline: [s] is cut at each newline
    character. *)
Fixpoint split_lines (s : string) : lines :=
  match s with
  | EmptyString => [EmptyString]
  | String c s' =>
      if is_newline c then EmptyString :: split_lines s'
      else match split_lines s' with
           | l :: ls => String c l :: ls
           | [] => [String c EmptyString]
           end
  end.

(** *** [echo "$2"]

    The builtin reads a leading argument of the shape [-] followed by one
    or more of [n], [e], [E] as options; with the title as the only
    argument nothing is left to print then: no output with [n], an empty
    line without. Any other argument is printed, followed by a newline. *)

Definition is_echo_flag (c : ascii) : bool :=
  Ascii.eqb c "n"%char || Ascii.eqb c "e"%char || Ascii.eqb c "E"%char.

Definition is_echo_option (arg : string) : bool :=
  match arg with
  | String c (String f fs) =>
      is_hyphen c && forallb_string is_echo_flag (String f fs)
  | _ => false
  end.

Definition echo (arg : string) : lines :=
  if is_echo_option arg then
    if existsb_string (Ascii.eqb "n"%char) arg then [] else [EmptyString]
  else split_lines arg.

(** *** The locale

    The script sets no locale, and two of its tools depend on the one they
    run in: which bytes [tr] takes for upper-case letters, and which bytes
    of a line form a character that [sed] matches against [[^a-z0-9]]. *)

Record Locale := {
  (** [tr '[:upper:]' '[:lower:]'] on one byte. *)
  tr_lower : ascii -> ascii;
  (** [sed 's/[^a-z0-9]/-/g'] on one line. *)
  sed_replace_line : string -> string;
}.

(** Byte by byte, as in the C locale: the letters [A-Z] are lowered, and
    every byte outside [a-z0-9] is a character of its own and is
    replaced. *)
Definition to_lower (c : ascii) : ascii :=
  if is_upper c then ascii_of_nat (nat_of_ascii c + 32) else c.

Definition replace_disallowed (c : ascii) : ascii :=
  if in_a_z_0_9 c then c else hyphen.

Definition C_locale : Locale :=
  {| tr_lower := to_lower;
     sed_replace_line := map_string replace_disallowed |}.

(** A locale that treats ASCII text as the C locale does; the UTF-8
    locales are of this kind. On other bytes nothing is asked of it. *)
Definition ascii_compatible (L : Locale) : Prop :=
  (forall c, is_ascii c = true -> tr_lower L c = to_lower c)
  /\ (forall l, forallb_string is_ascii l = true ->
                sed_replace_line L l = map_string replace_disallowed l).

(** *** [tr '[:upper:]' '[:lower:]'] *)

Definition tr_upper_lower (L : Locale) (input : lines) : lines :=
  map_string (tr_lower L) <$> input.

(** *** [sed 's/[^a-z0-9]/-/g'] *)

Definition sed_replace (L : Locale) (input : lines) : lines :=
  sed_replace_line L <$> input.

(** *** [sed 's/--*/-/g']

    Every maximal run of hyphens becomes one hyphen: a hyphen is dropped
    exactly when another one follows it. *)

Fixpoint squeeze_hyphens (s : string) : string :=
  match s with
  | EmptyString => EmptyString
  | String c s' =>
      match s' with
      | String c' _ =>
          if is_hyphen c && is_hyphen c' then squeeze_hyphens s'
          else String c (squeeze_hyphens s')
      | EmptyString => String c EmptyString
      end
  end.

Definition sed_squeeze (input : lines) : lines :=
  squeeze_hyphens <$> input.

(** *** [sed 's/^-\|-$//g']

    One hyphen at the start of the line is deleted, and one hyphen at the
    end of what follows it. *)

Fixpoint delete_final_hyphen (s : string) : string :=
  match s with
  | EmptyString => EmptyString
  | String c s' =>
      match s' with
      | EmptyString => if is_hyphen c then EmptyString else s
      | String _ _ => String c (delete_final_hyphen s')
      end
  end.

Definition delete_edge_hyphens (s : string) : string :=
  match s with
  | String c s' =>
      if is_hyphen c then delete_final_hyphen s' else delete_final_hyphen s
  | EmptyString => EmptyString
  end.

Definition sed_trim (input : lines) : lines :=
  delete_edge_hyphens <$> input.

(** *** Command substitution [$(...)]

    The output of the pipeline with all trailing newlines removed. *)

Fixpoint drop_trailing_empty (ls : lines) : lines :=
  match ls with
  | [] => []
  | l :: ls' =>
      match drop_trailing_empty ls' with
      | [] => match l with EmptyString => [] | _ => [l] end
      | r => l :: r
      end
  end.

Fixpoint join_lines (ls : lines) : string :=
  match ls with
  | [] => EmptyString
  | l :: ls' =>
      match ls' with
      | [] => l
      | _ => l +:+ String newline (join_lines ls')
      end
  end.

Definition command_substitution (output : lines) : string :=
  join_lines (drop_trailing_empty output).

(** *** The slug pipeline of [new-post]

    [slug=$(echo "$2" | tr '[:upper:]' '[:lower:]' | sed 's/[^a-z0-9]/-/g'
            | sed 's/--*/-/g' | sed 's/^-\|-$//g')] *)

Definition slug (L : Locale) (title : string) : string :=
  command_substitution
    (sed_trim (sed_squeeze (sed_replace L (tr_upper_lower L (echo title))))).

End Shell.


(** ** The [new-post] command of the [blog] script *)

Module BlogScript.

(** What a run of the script leaves behind: its exit status, what it
    printed, and the files. *)
Record outcome := Outcome {
  status : Z;
  stdout : list string;
  files : gmap string string;
}.

(** [file="src/content/blog/$slug.md"] *)
Definition post_file (slug : string) : string :=
  "src/content/blog/" +:+ slug +:+ ".md".

(** The here-document written to the file, with [$2] and [$date]
    expanded. *)
Definition post_template (title date : string) : string :=
  Shell.join_lines
    [ "---";
      "title: '" +:+ title +:+ "'";
      "description: 'Description for " +:+ title +:+ "'";
      "pubDate: " +:+ date;
      "---";
      "";
      "# " +:+ title;
      "";
      "Your content here...";
      "" ].

(** The redirection [cat > "$file"]: when the shell can open the file for
    writing, it is created, or truncated if it is there, and holds the
    text; when it cannot (no directory [src/content/blog/], a name that is
    too long, no permission), [cat] is not run and nothing is written.
    Whether a file can be opened is for the system the script runs on to
    say ([can_open]). *)
Definition redirect (can_open : string -> bool) (file text : string)
    (fs : gmap string string) : gmap string string :=
  if can_open file then <[file := text]> fs else fs.

(** [blog new-post "$2"] in the locale [L], where [date] is what
    [date +%Y-%m-%d] prints at the time of the run. The [echo] after the
    here-document runs whether or not the file was written, and its status
    is that of the script. *)
Definition new_post (L : Shell.Locale) (can_open : string -> bool)
    (title date : string) (fs : gmap string string) : outcome :=
  match title with
  | EmptyString =>
      {| status := 1;
         stdout := ["Usage: blog new-post 'Post Title'"];
         files := fs |}
  | _ =>
      let slug := Shell.slug L title in
      let file := post_file slug in
      {| status := 0;
         stdout := ["Created new post: " +:+ file];
         files := redirect can_open file (post_template title date) fs |}
  end.

End BlogScript.

(** ** The slug rule in the words of the specification

    "Filename without extension, lowercased, with disallowed characters
    normalized to a separator, collapsing repeated separators and trimming
    leading/trailing separators." *)

Module SlugRule.

Definition is_dot (c : ascii) : bool := Ascii.eqb c "."%char.
Definition separator : ascii := "-"%char.
Definition is_separator (c : ascii) : bool := Ascii.eqb c separator.

Fixpoint member (c : ascii) (s : string) : bool :=
  match s with
  | EmptyString => false
  | String x s' => Ascii.eqb c x || member c s'
  end.

Fixpoint has_dot (s : string) : bool :=
  match s with
  | EmptyString => false
  | String c s' => is_dot c || has_dot s'
  end.

Fixpoint each_char (f : ascii -> ascii) (s : string) : string :=
  match s with
  | EmptyString => EmptyString
  | String c s' => String (f c) (each_char f s')
  end.

(** The name up to its last dot (the whole name when it has none). *)
Fixpoint without_extension (f : string) : string :=
  match f with
  | EmptyString => EmptyString
  | String c f' =>
      if has_dot f' then String c (without_extension f')
      else if is_dot c then EmptyString else f
  end.

Definition upper_case : string := "ABCDEFGHIJKLMNOPQRSTUVWXYZ".
Definition lower_case : string := "abcdefghijklmnopqrstuvwxyz".
Definition digits : string := "0123456789".

(** The character of [to] at the place [c] has in [from]; [c] itself when
    it is not in [from]. *)
Fixpoint translate (from to : string) (c : ascii) : ascii :=
  match from, to with
  | String f from', String t to' =>
      if Ascii.eqb c f then t else translate from' to' c
  | _, _ => c
  end.

Definition lower (c : ascii) : ascii := translate upper_case lower_case c.

Definition lowercased (s : string) : string := each_char lower s.

(** The allowed characters are the lower-case letters and the digits. *)
Definition allowed (c : ascii) : bool := member c lower_case || member c digits.
Definition disallowed (c : ascii) : bool := negb (allowed c).

Definition separated (s : string) : string :=
  each_char (fun c => if disallowed c then separator else c) s.

(** A separator is kept only when the collapsed rest does not start with
    one. *)
Fixpoint collapsed (s : string) : string :=
  match s with
  | EmptyString => EmptyString
  | String c s' =>
      let r := collapsed s' in
      match r with
      | String c' _ =>
          if is_separator c && is_separator c' then r else String c r
      | EmptyString => String c EmptyString
      end
  end.

Fixpoint trim_leading (s : string) : string :=
  match s with
  | String c s' => if is_separator c then trim_leading s' else s
  | EmptyString => EmptyString
  end.

Fixpoint trim_trailing (s : string) : string :=
  match s with
  | EmptyString => EmptyString
  | String c s' =>
      match trim_trailing s' with
      | EmptyString => if is_separator c then EmptyString
                       else String c EmptyString
      | r => String c r
      end
  end.

Definition normalized (s : string) : string :=
  trim_trailing (trim_leading (collapsed (separated (lowercased s)))).

Definition slug_of_filename (f : string) : string :=
  normalized (without_extension f).

End SlugRule.



(** ** Schema validation ([zod]) *)

Module Zod.

(** A frontmatter value as the YAML reader hands it to the schema. A date
    carries its time value, [None] for an invalid date. *)
Inductive value :=
| VUndefined
| VNull
| VBoolean (b : bool)
| VNumber (n : Z)
| VString (s : string)
| VDate (time : option Z)
| VArray (items : list value)
| VObject (fields : list (string * value)).

Inductive parsed_type :=
| TUndefined | TNull | TBoolean | TNumber | TString | TDate | TArray
| TObject.

Definition getParsedType (v : value) : parsed_type :=
  match v with
  | VUndefined => TUndefined
  | VNull => TNull
  | VBoolean _ => TBoolean
  | VNumber _ => TNumber
  | VString _ => TString
  | VDate _ => TDate
  | VArray _ => TArray
  | VObject _ => TObject
  end.

Inductive path_segment := Key (k : string) | Index (i : nat).

Inductive issue_code :=
| invalid_type (expected received : parsed_type)
| invalid_date.

Record issue := Issue { code : issue_code; path : list path_segment }.

Inductive result (A : Type) :=
| OK (a : A)
| INVALID (issues : list issue).
Arguments OK {A} a.
Arguments INVALID {A} issues.

Definition issues_of {A} (r : result A) : list issue :=
  match r with OK _ => [] | INVALID l => l end.

Definition is_ok {A} (r : result A) : bool :=
  match r with OK _ => true | INVALID _ => false end.

(** A schema reads the value found at [path]. *)
Definition schema (A : Type) : Type := list path_segment -> value -> result A.

Definition wrong_type {A} (expected : parsed_type) (p : list path_segment)
    (v : value) : result A :=
  INVALID [ {| code := invalid_type expected (getParsedType v); path := p |} ].

(** [z.string()] *)
Definition z_string : schema string := fun p v =>
  match v with
  | VString s => OK s
  | _ => wrong_type TString p v
  end.

(** [z.date()] *)
Definition z_date : schema Z := fun p v =>
  match v with
  | VDate (Some t) => OK t
  | VDate None => INVALID [ {| code := invalid_date; path := p |} ]
  | _ => wrong_type TDate p v
  end.

(** [.optional()] *)
Definition z_optional {A} (s : schema A) : schema (option A) := fun p v =>
  match v with
  | VUndefined => OK None
  | _ => match s p v with
         | OK a => OK (Some a)
         | INVALID l => INVALID l
         end
  end.

(** The results of the items of an array, gathered: all the values, or all
    the issues. *)
Fixpoint gather {A} (rs : list (result A)) : result (list A) :=
  match rs with
  | [] => OK []
  | r :: rs' =>
      match r, gather rs' with
      | OK a, OK l => OK (a :: l)
      | _, g => INVALID (issues_of r ++ issues_of g)%list
      end
  end.

(** [z.array(s)] *)
Definition z_array {A} (s : schema A) : schema (list A) := fun p v =>
  match v with
  | VArray items => gather (imap (fun i x => s (p ++ [Index i])%list x) items)
  | _ => wrong_type TArray p v
  end.

End Zod.

(** ** The [blog] collection ([src/content/config.ts]) *)

Module Content.
Import Zod.

(** The [data] of an entry: what the schema returns. *)
Record BlogData := {
  title : string;
  description : string;
  pubDate : Z;
  updatedDate : option Z;
  heroImage : option string;
  tags : option (list string);
}.

(** A key that the mapping does not have reads as [undefined]. *)
Definition field (data : gmap string value) (k : string) : value :=
  default VUndefined (data !! k).

(** [z.object({ title: z.string(), description: z.string(),
      pubDate: z.date(), updatedDate: z.date().optional(),
      heroImage: z.string().optional(),
      tags: z.array(z.string()).optional() })]: every key of the shape is
    read, and the issues of all of them are reported together. *)
Definition blog_schema (data : gmap string value) : result BlogData :=
  let r_title := z_string [Key "title"] (field data "title") in
  let r_description := z_string [Key "description"] (field data "description") in
  let r_pubDate := z_date [Key "pubDate"] (field data "pubDate") in
  let r_updatedDate :=
    z_optional z_date [Key "updatedDate"] (field data "updatedDate") in
  let r_heroImage :=
    z_optional z_string [Key "heroImage"] (field data "heroImage") in
  let r_tags :=
    z_optional (z_array z_string) [Key "tags"] (field data "tags") in
  match r_title, r_description, r_pubDate, r_updatedDate, r_heroImage,
        r_tags with
  | OK t, OK d, OK p, OK u, OK h, OK g =>
      OK {| title := t; description := d; pubDate := p; updatedDate := u;
            heroImage := h; tags := g |}
  | _, _, _, _, _, _ =>
      INVALID (issues_of r_title ++ issues_of r_description
               ++ issues_of r_pubDate ++ issues_of r_updatedDate
               ++ issues_of r_heroImage ++ issues_of r_tags)%list
  end.

(** [CollectionEntry<'blog'>] *)
Record CollectionEntry := {
  slug : string;
  body : string;
  data : BlogData;
}.

End Content.

(** ** JavaScript arrays

    An array is a cell of the heap and a variable holds a reference to it,
    so that two variables can name one array. *)

Module JS.

Abbreviation ref := nat.
Abbreviation heap A := (list (list A)).

Section Arrays.
Context {A : Type}.

(** A computation: it reads and updates the heap and returns a result. *)
Definition M (R : Type) : Type := heap A -> R * heap A.

Definition ret {R} (r : R) : M R := fun h => (r, h).

Definition bind {R S} (m : M R) (k : R -> M S) : M S :=
  fun h => let (r, h') := m h in k r h'.

Definition new_array (xs : list A) : M ref :=
  fun h => (length h, (h ++ [xs])%list).

Definition elements (r : ref) : M (list A) :=
  fun h => (default [] (h !! r), h).

(** [Array.prototype.sort(comparefn)] is a stable sort: [x] goes after [y]
    when [comparefn x y > 0], and elements that compare equal keep their
    order. For a consistent comparator this fixes the result, computed here
    by insertion from the right. *)
Fixpoint sort_insert (comparefn : A -> A -> Z) (x : A) (l : list A) : list A :=
  match l with
  | [] => [x]
  | y :: l' =>
      if (0 <? comparefn x y)%Z then y :: sort_insert comparefn x l'
      else x :: l
  end.

Definition sorted (comparefn : A -> A -> Z) (l : list A) : list A :=
  foldr (sort_insert comparefn) [] l.

(** [arr.sort(comparefn)]: the array is sorted in place, and the reference
    to the same array is returned. *)
Definition Array_sort (comparefn : A -> A -> Z) (r : ref) : M ref :=
  fun h => (r, alter (sorted comparefn) r h).

(** [arr.slice(start, stop)]: a new array. *)
Definition Array_slice (start stop : nat) (r : ref) : M ref :=
  fun h => new_array (take (stop - start) (drop start (default [] (h !! r)))) h.

End Arrays.
End JS.

Notation "'let*' x ':=' m 'in' k" := (JS.bind m (fun x => k))
  (at level 10, x name, k at level 200, only parsing).

(** ** Pages and layouts *)

Module Html.

Inductive node :=
| Doctype
| Element (tag : string) (attrs : list (string * string)) (children : list node)
| Text (s : string)
| Content (markdown : string).

End Html.

Module Site.
Import Content Html.

(** What the rendering takes from the host it runs on: the generator
    string, and the date formatting of the JavaScript runtime (the default
    locale and the time zone are the host's). *)
Record Host := {
  generator : string;
  toISOString : Z -> string;
  toLocaleDateString : Z -> string;
  toLocaleDateString_en_us_long : Z -> string;
}.

(** The [<style>] blocks of the components are constant text and are left
    out of the pages. *)

Section Pages.
Context (host : Host).

(** *** [src/layouts/BaseLayout.astro] *)

Definition default_description : string := "My awesome blog powered by Astro".

Definition BaseLayout (title : string) (description : option string)
    (slot : list node) : list node :=
  let description := default default_description description in
  [ Doctype;
    Element "html" [("lang", "en")]
      [ Element "head" []
          [ Element "meta" [("charset", "utf-8")] [];
            Element "link" [("rel", "icon"); ("type", "image/svg+xml");
                            ("href", "/favicon.svg")] [];
            Element "meta" [("name", "viewport");
                            ("content", "width=device-width")] [];
            Element "meta" [("name", "generator");
                            ("content", generator host)] [];
            Element "meta" [("name", "description");
                            ("content", description)] [];
            Element "title" [] [Text title] ];
        Element "body" []
          [ Element "header" []
              [ Element "nav" []
                  [ Element "a" [("href", "/"); ("class", "logo")]
                      [Text "My Blog"];
                    Element "div" [("class", "nav-links")]
                      [ Element "a" [("href", "/")] [Text "Home"];
                        Element "a" [("href", "/blog")] [Text "Blog"] ] ] ];
            Element "main" [] slot;
            Element "footer" []
              [ Element "p" [] [Text "&copy; 2025 My Blog. Built with Astro."] ]
          ] ] ].

(** *** [src/layouts/BlogPost.astro] *)

Definition tag_span (tag : string) : node :=
  Element "span" [("class", "tag")] [Text tag].

Definition BlogPost (d : BlogData) (slot : list node) : list node :=
  BaseLayout (title d) (Some (description d))
    [ Element "article" []
        [ Element "header" [("class", "post-header")]
            ([ Element "h1" [] [Text (title d)];
               Element "div" [("class", "post-meta")]
                 (Element "time" [("datetime", toISOString host (pubDate d))]
                    [Text (toLocaleDateString_en_us_long host (pubDate d))]
                  :: match updatedDate d with
                     | Some u =>
                         [ Element "span" [("class", "updated")]
                             [ Text "Updated: ";
                               Text (toLocaleDateString_en_us_long host u) ] ]
                     | None => []
                     end) ]
             ++ match tags d with
                | Some (t :: ts) =>
                    [ Element "div" [("class", "tags")]
                        (tag_span <$> (t :: ts)) ]
                | _ => []
                end)%list;
          Element "div" [("class", "post-content")] slot ] ].

(** The comparator of both listings:
    [(a, b) => b.data.pubDate.valueOf() - a.data.pubDate.valueOf()]. *)
Definition by_pubDate_desc (a b : CollectionEntry) : Z :=
  (pubDate (data b) - pubDate (data a))%Z.

Definition post_href (post : CollectionEntry) : string :=
  "/blog/" +:+ slug post +:+ "/".

(** *** [src/pages/index.astro] *)

(** [const sortedPosts = posts.sort(...).slice(0, 3)] *)
Definition home_frontmatter (posts : JS.ref) : JS.M (A:=CollectionEntry) JS.ref :=
  let* sortedAll := JS.Array_sort by_pubDate_desc posts in
  JS.Array_slice 0 3 sortedAll.

Definition post_card (post : CollectionEntry) : node :=
  Element "article" [("class", "post-card")]
    [ Element "a" [("href", post_href post)]
        [ Element "h3" [] [Text (title (data post))];
          Element "p" [] [Text (description (data post))];
          Element "time" [] [Text (toLocaleDateString host (pubDate (data post)))]
        ] ].

Definition home_template (sortedPosts : list CollectionEntry) : list node :=
  BaseLayout "Welcome to My Blog" None
    [ Element "section" [("class", "hero")]
        [ Element "h1" [] [Text "Welcome to My Blog"];
          Element "p" []
            [Text "A modern blog built with Astro, powered by Nix, and deployed with GitHub Pages."] ];
      Element "section" [("class", "recent-posts")]
        (Element "h2" [] [Text "Recent Posts"]
         :: (if (0 <? length sortedPosts)%nat
             then Element "div" [("class", "posts-grid")]
                    (post_card <$> sortedPosts)
             else Element "p" [] [Text "No posts yet. Check back soon!"])
         :: (if (0 <? length sortedPosts)%nat
             then [ Element "a" [("href", "/blog"); ("class", "view-all")]
                      [Text "View all posts →"] ]
             else [])) ].

Definition home_page (posts : JS.ref) : JS.M (list node) :=
  let* sortedPosts := home_frontmatter posts in
  let* shown := JS.elements sortedPosts in
  JS.ret (home_template shown).

(** *** [src/pages/blog/index.astro] *)

(** [const sortedPosts = posts.sort(...)] *)
Definition blog_index_frontmatter (posts : JS.ref)
  : JS.M (A:=CollectionEntry) JS.ref :=
  JS.Array_sort by_pubDate_desc posts.

Definition empty_state : node := Element "p" [] [Text "No posts published yet."].

Definition post_item (post : CollectionEntry) : node :=
  Element "article" [("class", "post-item")]
    [ Element "a" [("href", post_href post)]
        [ Element "h2" [] [Text (title (data post))];
          Element "p" [] [Text (description (data post))];
          Element "div" [("class", "post-meta")]
            (Element "time" []
               [Text (toLocaleDateString host (pubDate (data post)))]
             :: match tags (data post) with
                | Some ts => [ Element "div" [("class", "tags")] (tag_span <$> ts) ]
                | None => []
                end) ] ].

Definition blog_index_template (sortedPosts : list CollectionEntry)
  : list node :=
  BaseLayout "All Blog Posts" None
    [ Element "h1" [] [Text "All Blog Posts"];
      if (0 <? length sortedPosts)%nat
      then Element "div" [("class", "posts-list")] (post_item <$> sortedPosts)
      else empty_state ].

Definition blog_index_page (posts : JS.ref) : JS.M (list node) :=
  let* sortedPosts := blog_index_frontmatter posts in
  let* shown := JS.elements sortedPosts in
  JS.ret (blog_index_template shown).

(** *** [src/pages/blog/[...slug].astro] *)

Record StaticPath := {
  params_slug : string;
  props : CollectionEntry;
}.

(** [posts.map((post) => ({ params: { slug: post.slug }, props: post }))] *)
Definition getStaticPaths (posts : list CollectionEntry) : list StaticPath :=
  (fun post => {| params_slug := slug post; props := post |}) <$> posts.

(** The page file is [blog/[...slug].astro]: its route is [/blog/] followed
    by the [slug] parameter, as in the links of the listings. *)
Definition route_path (p : StaticPath) : string :=
  "/blog/" +:+ params_slug p +:+ "/".

(** [<BlogPost {...post.data}><Content /></BlogPost>] *)
Definition post_page (post : CollectionEntry) : list node :=
  BlogPost (data post) [Content (body post)].

End Pages.
End Site.

(** ** The build: loading, validation, routes, output *)

Module Build.
Import Zod Content Html Site.

(** Modelled from the spec: the content loader is framework code, not in
    the repository. It yields one raw entry per discovered file: the slug,
    the frontmatter mapping and the body. *)
Record RawEntry := {
  raw_slug : string;
  frontmatter : gmap string value;
  raw_body : string;
}.

(** Modelled from the spec: the error that stops a build, naming the entry
    and the issues of its frontmatter. *)
Inductive BuildError :=
| ValidationError (entry : string) (issues : list issue).

(** Modelled from the spec: the framework code that loads the collection is
    not in the repository. Every entry's frontmatter goes through the
    collection schema; the collection holds the entries that passed, and
    the first entry that fails stops the build with its validation error. *)
Fixpoint load_collection (raws : list RawEntry)
  : BuildError + list CollectionEntry :=
  match raws with
  | [] => inr []
  | r :: rest =>
      match blog_schema (frontmatter r) with
      | INVALID l => inl (ValidationError (raw_slug r) l)
      | OK d =>
          match load_collection rest with
          | inl e => inl e
          | inr es => inr ({| slug := raw_slug r; body := raw_body r; data := d |} :: es)
          end
      end
  end.

(** Modelled from the spec: [getCollection('blog')], the framework call of
    every page, hands the page an array with the entries of the
    collection. *)
Definition getCollection (collection : list CollectionEntry)
  : JS.M (A:=CollectionEntry) JS.ref :=
  JS.new_array collection.

(** Modelled from the spec: the framework runs the script of a page, which
    works on the array it asked for. *)
Definition run_page {R} (collection : list CollectionEntry)
    (page : JS.ref -> JS.M (A:=CollectionEntry) R) : R :=
  fst ((let* posts := getCollection collection in page posts) []).

(** Modelled from the spec: the framework renders the page of
    [blog/[...slug].astro] once for each static path, with the properties
    of that path. *)
Definition detail_routes (host : Host) (collection : list CollectionEntry)
  : list (string * list node) :=
  (fun p => (route_path p, post_page host (props p)))
    <$> getStaticPaths collection.

(** Modelled from the spec: the routes of the site, in the order they are
    written: the home page, the listing, and one page per static path. *)
Definition routes (host : Host) (collection : list CollectionEntry)
  : list (string * list node) :=
  ("/", run_page collection (home_page host))
  :: ("/blog/", run_page collection (blog_index_page host))
  :: detail_routes host collection.

(** Modelled from the spec: what a run of the build works on, the content
    directory (the raw entries, in loading order) and the output
    directory (the page written at each route). *)
Record World := {
  content : list RawEntry;
  dist : gmap string (list node);
}.

(** Modelled from the spec: "write route X with content Y", the output
    effect of the pipeline; a route written again replaces the page that
    was there. *)
Definition write_route (d : gmap string (list node))
    (r : string * list node) : gmap string (list node) :=
  <[r.1 := r.2]> d.

(** Modelled from the spec: one run of the build. It either fails before
    anything is written, or writes every route into the output. *)
Definition build (host : Host) (w : World) : BuildError + World :=
  match load_collection (content w) with
  | inl e => inl e
  | inr collection =>
      inr {| content := content w;
             dist := foldl write_route (dist w) (routes host collection) |}
  end.


End Build.

(** ** Shapes of titles and slugs *)

Module SlugShape.
Import Shell.

(** The characters of a slug: [a-z], [0-9] and the hyphen. *)
Definition slug_char (c : ascii) : bool :=
  SlugRule.allowed c || SlugRule.is_separator c.

Definition starts_with_hyphen (s : string) : bool :=
  match s with
  | String c _ => is_hyphen c
  | EmptyString => false
  end.




(** A title of one line that [echo] prints as it is. *)
Definition plain_title (t : string) : bool :=
  negb (existsb_string is_newline t) && negb (is_echo_option t).

(** A title of ASCII characters only. *)
Definition ascii_title (t : string) : bool := forallb_string is_ascii t.

End SlugShape.

(** ** Statements of the specification, in its words

    The statements that are compared with the code below. *)

Module SpecWords.
Import Zod Content.

(** "Required fields: title (non-empty string), description (string),
    publish date (parseable date)." *)
Definition required_fields_present (fm : gmap string value) : Prop :=
  (exists t, fm !! "title" = Some (VString t) /\ t <> EmptyString)
  /\ (exists d, fm !! "description" = Some (VString d))
  /\ (exists p, fm !! "pubDate" = Some (VDate (Some p))).

(** "Sorted by publish date descending; entries sharing an identical
    publish date are ordered by slug ascending." *)
Definition date_desc_then_slug_asc (a b : CollectionEntry) : Prop :=
  (pubDate (data b) < pubDate (data a))%Z
  \/ (pubDate (data a) = pubDate (data b)
      /\ String.leb (slug a) (slug b) = true).

End SpecWords.

(** What the schema asks of a field that may be absent. *)

Module SchemaShape.
Import Zod.

Definition is_string (v : value) : Prop := exists s, v = VString s.
Definition is_valid_date (v : value) : Prop := exists t, v = VDate (Some t).
Definition is_string_array (v : value) : Prop :=
  exists ss : list string, v = VArray (VString <$> ss).

Definition absent_or (P : value -> Prop) (o : option value) : Prop :=
  match o with
  | None | Some VUndefined => True
  | Some v => P v
  end.

(** The condition under which the collection schema accepts a mapping. *)
Definition schema_accepts (fm : gmap string value) : Prop :=
  (exists t, fm !! "title" = Some (VString t))
  /\ (exists d, fm !! "description" = Some (VString d))
  /\ (exists p, fm !! "pubDate" = Some (VDate (Some p)))
  /\ absent_or is_valid_date (fm !! "updatedDate")
  /\ absent_or is_string (fm !! "heroImage")
  /\ absent_or is_string_array (fm !! "tags").

End SchemaShape.

(** ** The order of the listing *)

Module Listing.
Import Content.

(** Not older than: the order the comparator of the pages sorts by. *)
Definition not_older (a b : CollectionEntry) : Prop :=
  (pubDate (data b) <= pubDate (data a))%Z.

(** The entries published at [d], in the order of the list. *)
Definition published_at (d : Z) (l : list CollectionEntry)
  : list CollectionEntry :=
  filter (fun e => pubDate (data e) = d) l.

End Listing.

(** ** Sample entries *)

Module Samples.
Import Zod Content.

(** Midnight UTC of 2025-09-15 and of 2025-09-26. *)
Definition date_2025_09_15 : Z := 1757894400000.
Definition date_2025_09_26 : Z := 1758844800000.

Definition post (s : string) (d : Z) : CollectionEntry :=
  {| slug := s; body := "";
     data := {| title := s; description := ""; pubDate := d;
                updatedDate := None; heroImage := None; tags := None |} |}.

Definition earlier : CollectionEntry := post "earlier" date_2025_09_15.
Definition later : CollectionEntry := post "later" date_2025_09_26.

(** Two entries of one day, the slug [b] before the slug [a]. *)
Definition same_day_b : CollectionEntry := post "b" date_2025_09_15.
Definition same_day_a : CollectionEntry := post "a" date_2025_09_15.

(** A frontmatter mapping with an empty title and nothing optional. *)
Definition empty_title : gmap string value :=
  {[ "title" := VString "";
     "description" := VString "About nothing";
     "pubDate" := VDate (Some date_2025_09_15) ]}.

(** A frontmatter mapping without [pubDate], and one without [title]. *)
Definition no_pubDate : gmap string value :=
  {[ "title" := VString "Undated"; "description" := VString "No date" ]}.

Definition no_title : gmap string value :=
  {[ "description" := VString "No title";
     "pubDate" := VDate (Some date_2025_09_26) ]}.

Definition complete : gmap string value :=
  {[ "title" := VString "My First Blog Post";
     "description" := VString "Welcome";
     "pubDate" := VDate (Some date_2025_09_26);
     "tags" := VArray [VString "astro"; VString "nix"] ]}.

(** Two valid frontmatter mappings of the same day. *)
Definition same_day_first : gmap string value :=
  {[ "title" := VString "First of the day";
     "description" := VString "One";
     "pubDate" := VDate (Some date_2025_09_15) ]}.

Definition same_day_second : gmap string value :=
  {[ "title" := VString "Second of the day";
     "description" := VString "Two";
     "pubDate" := VDate (Some date_2025_09_15) ]}.

(** A locale in which [sed] leaves the bytes outside ASCII as they are, as
    it does in a UTF-8 locale with a byte that is no valid UTF-8. *)
Definition keeping_locale : Shell.Locale :=
  {| Shell.tr_lower := Shell.to_lower;
     Shell.sed_replace_line :=
       Shell.map_string
         (fun c => if Shell.is_ascii c then Shell.replace_disallowed c else c) |}.

Definition raw (s : string) (fm : gmap string value) : Build.RawEntry :=
  {| Build.raw_slug := s; Build.frontmatter := fm; Build.raw_body := "" |}.

Definition host : Site.Host :=
  {| Site.generator := "Astro";
     Site.toISOString := fun _ => "";
     Site.toLocaleDateString := fun _ => "";
     Site.toLocaleDateString_en_us_long := fun _ => "" |}.

End Samples.

(** ** The [blog] command *)

Module BlogCommand.
Import BlogScript.

(** What a run takes from the system it runs on: the locale, whether a
    file can be opened for writing, and [npm run <script>], which leaves
    its own exit status, output and files. *)
Record System := {
  locale : Shell.Locale;
  can_open : string -> bool;
  npm_run : string -> gmap string string -> outcome;
}.

Definition help : list string :=
  [ "Available commands:";
    "  blog new-post 'Title'  - Create a new blog post";
    "  blog dev              - Start development server";
    "  blog build            - Build for production";
    "  blog preview          - Preview production build" ].

(** A positional parameter that is not set expands to the empty string. *)
Definition positional (n : nat) (args : list string) : string :=
  default EmptyString (args !! n).

(** The [case "$1" in ... esac] of the script, on the arguments [$1],
    [$2], ...: the patterns [new-post], [dev], [build] and [preview], and
    the default pattern, which prints the help. The branches of [npm] end
    with the status [npm] returned. *)
Definition blog (sys : System) (args : list string) (date : string)
    (fs : gmap string string) : outcome :=
  let cmd := positional 0 args in
  if String.eqb cmd "new-post" then
    new_post (locale sys) (can_open sys) (positional 1 args) date fs
  else if String.eqb cmd "dev" then npm_run sys "dev" fs
  else if String.eqb cmd "build" then npm_run sys "build" fs
  else if String.eqb cmd "preview" then npm_run sys "preview" fs
  else {| status := 0; stdout := help; files := fs |}.

End BlogCommand.

(** ** Links of a page *)

Module Links.
Import Html.

Fixpoint attribute (name : string) (attrs : list (string * string))
  : option string :=
  match attrs with
  | [] => None
  | (k, v) :: rest =>
      if String.eqb k name then Some v else attribute name rest
  end.

(** The targets of the [a] elements of a node, in document order. *)
Fixpoint hrefs (n : node) : list string :=
  match n with
  | Element tag attrs children =>
      ((if String.eqb tag "a"
        then match attribute "href" attrs with
             | Some target => [target]
             | None => []
             end
        else [])
       ++ flat_map hrefs children)%list
  | _ => []
  end.

Definition page_hrefs (page : list node) : list string :=
  flat_map hrefs page.

(** The links of the navigation of [BaseLayout]. *)
Definition nav_hrefs : list string := ["/"; "/"; "/blog"].

End Links.

(** ** Characters of titles and paths *)

Module TitleShape.

Definition is_slash (c : ascii) : bool := Ascii.eqb c "/"%char.

(** A letter or a digit of ASCII. *)
Definition is_alnum (c : ascii) : bool :=
  SlugRule.member c SlugRule.upper_case
  || SlugRule.member c SlugRule.lower_case
  || SlugRule.member c SlugRule.digits.

Definition is_upper_case (c : ascii) : bool :=
  SlugRule.member c SlugRule.upper_case.

(** The characters a slug can hold at all: [a-z], [0-9], the hyphen, and
    the newline between the lines of a title of several lines. *)
Definition slug_or_newline (c : ascii) : bool :=
  SlugRule.allowed c || SlugRule.is_separator c || Ascii.eqb c "010"%char.

End TitleShape.

(** ** The keys of the collection schema *)

Module SchemaKeys.
Import Zod.

(** The shape of the object schema of [src/content/config.ts]: each key
    with the type its value must have and whether it is [.optional()]. *)
Definition shape : list (string * parsed_type * bool) :=
  [ ("title", TString, false);
    ("description", TString, false);
    ("pubDate", TDate, false);
    ("updatedDate", TDate, true);
    ("heroImage", TString, true);
    ("tags", TArray, true) ].

Definition keys : list string := (fun e => e.1.1) <$> shape.

(** The issue for a value of the wrong type at a key. *)
Definition type_issue (k : string) (expected : parsed_type) (v : value)
  : issue :=
  {| code := invalid_type expected (getParsedType v); path := [Key k] |}.

End SchemaKeys.

(** ** The words of a title *)

Module SlugWords.
Import Shell.

(** The pieces of a title between its characters that are no letters or
    digits, lowercased. *)
Fixpoint pieces (title : string) : list string :=
  match title with
  | EmptyString => [EmptyString]
  | String c t' =>
      if TitleShape.is_alnum c then
        match pieces t' with
        | p :: ps => String (SlugRule.lower c) p :: ps
        | [] => [String (SlugRule.lower c) EmptyString]
        end
      else EmptyString :: pieces t'
  end.

(** The words of a title: the maximal runs of ASCII letters and digits,
    lowercased. *)
Definition words (title : string) : list string :=
  filter (fun w : string => w <> EmptyString) (pieces title).

Fixpoint join_hyphen (ws : list string) : string :=
  match ws with
  | [] => EmptyString
  | w :: ws' =>
      match ws' with
      | [] => w
      | _ => w +:+ String hyphen (join_hyphen ws')
      end
  end.

(** The pieces of a line between its hyphens. *)
Fixpoint fields (s : string) : list string :=
  match s with
  | EmptyString => [EmptyString]
  | String c s' =>
      if is_hyphen c then EmptyString :: fields s'
      else match fields s' with
           | f :: fs => String c f :: fs
           | [] => [String c EmptyString]
           end
  end.

(** Every word of the list, with a hyphen before it. *)
Fixpoint hyphen_before (ws : list string) : string :=
  match ws with
  | [] => EmptyString
  | w :: ws' => String hyphen (w +:+ hyphen_before ws')
  end.

End SlugWords.

(** ** Discovery of the content files *)

Module Loader.
Import Zod Build.

(** Modelled from the spec: a content file of the collection root, with
    its frontmatter already read. *)
Record SourceFile := {
  file_name : string;
  file_frontmatter : gmap string value;
  file_body : string;
}.

(** Modelled from the spec: "SlugCollisionError: two entries resolve to the
    same route path; fatal", with the slug and the two source files. *)
Inductive DiscoveryError :=
| SlugCollisionError (slug : string) (first second : string).

(** Modelled from the spec: the slug of a file is derived from its name by
    the slug rule. *)
Definition slug_of (f : SourceFile) : string :=
  SlugRule.slug_of_filename (file_name f).

(** Modelled from the spec: the raw entry of a file. *)
Definition raw_of (f : SourceFile) : RawEntry :=
  {| raw_slug := slug_of f;
     frontmatter := file_frontmatter f;
     raw_body := file_body f |}.

(** Modelled from the spec: the content loader, which is framework code
    and not in the repository. It yields one raw entry per file, in
    loading order; a file whose slug an earlier file has taken is a
    collision and stops the build, rather than replacing the earlier
    entry. [seen] holds the slugs taken so far, each with the file that
    took it. *)
Fixpoint discover_from (seen : gmap string string) (files : list SourceFile)
  : DiscoveryError + list RawEntry :=
  match files with
  | [] => inr []
  | f :: rest =>
      match seen !! slug_of f with
      | Some g => inl (SlugCollisionError (slug_of f) g (file_name f))
      | None =>
          match discover_from (<[slug_of f := file_name f]> seen) rest with
          | inl e => inl e
          | inr raws => inr (raw_of f :: raws)
          end
      end
  end.

Definition discover (files : list SourceFile)
  : DiscoveryError + list RawEntry :=
  discover_from ∅ files.

Inductive PipelineError :=
| Discovery (e : DiscoveryError)
| Validation (e : BuildError).

(** Modelled from the spec: the data flow "disk, content loader, schema
    validator, ..., static output": the files are discovered, and the
    build runs on the raw entries only when discovery succeeded. *)
Definition pipeline (host : Site.Host) (files : list SourceFile)
    (out : gmap string (list Html.node)) : PipelineError + World :=
  match discover files with
  | inl e => inl (Discovery e)
  | inr raws =>
      match build host {| content := raws; dist := out |} with
      | inl e => inl (Validation e)
      | inr w => inr w
      end
  end.

(** A file without a body, for the examples. *)
Definition sample_file (name : string) (fm : gmap string value)
  : SourceFile :=
  {| file_name := name; file_frontmatter := fm; file_body := "" |}.

End Loader.

(** ** The views of the collection, and asking for it again *)

Module Reload.
Import Content Site Build.


Definition sorted_by_date (posts : JS.ref)
  : JS.M (A:=CollectionEntry) (list CollectionEntry) :=
  let* sortedPosts := blog_index_frontmatter posts in
  JS.elements sortedPosts.


(** A view of the collection is taken, and then the collection is asked
    for again: the result of the view, and the entries found then. *)
Definition view_then_reload {R} (collection : list CollectionEntry)
    (view : JS.ref -> JS.M (A:=CollectionEntry) R)
  : JS.M (A:=CollectionEntry) (R * list CollectionEntry) :=
  let* posts := getCollection collection in
  let* seen := view posts in
  let* again := getCollection collection in
  let* entries := JS.elements again in
  JS.ret (seen, entries).

End Reload.

(** ** The text of a page *)

Module Texts.
Import Html.

(** The text nodes of a node, in document order. *)
Fixpoint texts (n : node) : list string :=
  match n with
  | Text s => [s]
  | Element _ _ children => flat_map texts children
  | _ => []
  end.

Definition page_texts (page : list node) : list string :=
  flat_map texts page.

End Texts.

(** * Properties *)

(** ** Characters *)

Ltac each_ascii c :=
  destruct c as [[] [] [] [] [] [] [] []]; vm_compute; try reflexivity;
  try discriminate; try tauto.

Section Characters.
Import Shell SlugShape.

Lemma is_hyphen_true c : is_hyphen c = true <-> c = hyphen.
Proof. unfold is_hyphen. apply Ascii.eqb_eq. Qed.





Lemma replace_is_slug_char c : slug_char (replace_disallowed c) = true.
Proof. each_ascii c. Qed.



Lemma allowed_as_rule c : SlugRule.allowed c = in_a_z_0_9 c.
Proof. each_ascii c. Qed.

Lemma slug_char_split c : slug_char c = in_a_z_0_9 c || is_hyphen c.
Proof. each_ascii c. Qed.

Lemma to_lower_ascii c : is_ascii c = true -> is_ascii (to_lower c) = true.
Proof. each_ascii c. Qed.


End Characters.

(** ** The slug pipeline on one line *)

Section SlugPipeline.
Import Shell SlugShape.

Local Abbreviation slugC := (slug C_locale).

Lemma split_lines_nonempty s : split_lines s <> [].
Proof.
  destruct s as [| c s]; simpl; [done |].
  destruct (is_newline c); [done |]. by destruct (split_lines s).
Qed.

Lemma split_lines_single s :
  existsb_string is_newline s = false -> split_lines s = [s].
Proof.
  induction s as [| c s IH]; simpl; [done |].
  intros [Hc Hs]%orb_false_iff. rewrite Hc, (IH Hs). done.
Qed.

Lemma echo_plain t : plain_title t = true -> echo t = [t].
Proof.
  unfold plain_title, echo.
  intros [Hl Ho]%andb_true_iff. apply negb_true_iff in Hl, Ho.
  rewrite Ho. by apply split_lines_single.
Qed.

Lemma command_substitution_single x : command_substitution [x] = x.
Proof. by destruct x. Qed.

(** On a plain title the pipeline is the composition of its four text
    transformations. *)
Lemma slug_plain t :
  plain_title t = true ->
  slugC t = delete_edge_hyphens
             (squeeze_hyphens
                (map_string replace_disallowed (map_string to_lower t))).
Proof.
  intros Ht. unfold slug. rewrite (echo_plain t Ht). simpl.
  apply command_substitution_single.
Qed.

(** *** Squeezing *)

Lemma squeeze_head c s : exists r, squeeze_hyphens (String c s) = String c r.
Proof.
  revert c. induction s as [| c' s IH]; intros c; simpl; [by eexists |].
  destruct (is_hyphen c && is_hyphen c') eqn:E; [| by eexists].
  apply andb_true_iff in E as [Hc Hc'].
  apply is_hyphen_true in Hc, Hc'. subst. apply (IH hyphen).
Qed.



Lemma squeeze_cons c c' s :
  squeeze_hyphens (String c (String c' s))
  = if is_hyphen c && is_hyphen c' then squeeze_hyphens (String c' s)
    else String c (squeeze_hyphens (String c' s)).
Proof. reflexivity. Qed.


Lemma squeeze_chars p s :
  forallb_string p s = true -> forallb_string p (squeeze_hyphens s) = true.
Proof.
  induction s as [| c s IH]; [done |].
  intros [Hc Hs]%andb_true_iff. specialize (IH Hs).
  destruct s as [| c' s]; [by simpl; rewrite Hc |].
  rewrite squeeze_cons.
  destruct (is_hyphen c && is_hyphen c'); [done |].
  cbn [forallb_string]. by rewrite Hc, IH.
Qed.


(** *** Trimming *)







End SlugPipeline.

(** ** The slugs the pipeline produces *)

Section SlugOutput.
Import Shell SlugShape.

Local Abbreviation slugC := (slug C_locale).


Lemma delete_final_cons c c' s :
  delete_final_hyphen (String c (String c' s))
  = String c (delete_final_hyphen (String c' s)).
Proof. reflexivity. Qed.

Lemma delete_final_chars p s :
  forallb_string p s = true -> forallb_string p (delete_final_hyphen s) = true.
Proof.
  induction s as [| c s IH]; [done |].
  intros [Hc Hs]%andb_true_iff. specialize (IH Hs).
  destruct s as [| c' s]; [simpl; destruct (is_hyphen c); simpl; by rewrite ?Hc |].
  rewrite delete_final_cons. cbn [forallb_string]. by rewrite Hc, IH.
Qed.






Lemma map_replace_chars s :
  forallb_string slug_char (map_string replace_disallowed s) = true.
Proof.
  induction s as [| c s IH]; [done |]. simpl.
  by rewrite replace_is_slug_char, IH.
Qed.










Lemma has_dot_exists s : SlugRule.has_dot s = existsb_string SlugRule.is_dot s.
Proof. induction s as [| c s IH]; simpl; [done | by rewrite IH]. Qed.




(** *** Other locales *)

Lemma split_lines_chars p s :
  forallb_string p s = true ->
  Forall (fun l => forallb_string p l = true) (split_lines s).
Proof.
  induction s as [| c s IH]; [by repeat constructor |].
  intros [Hc Hs]%andb_true_iff. specialize (IH Hs). simpl.
  destruct (is_newline c); [by constructor |].
  destruct (split_lines s) as [| l ls]; [by repeat constructor; simpl; rewrite Hc |].
  apply Forall_cons in IH as [Hl Hls]. constructor; [| done].
  simpl. by rewrite Hc, Hl.
Qed.

Lemma echo_chars p t :
  forallb_string p t = true ->
  Forall (fun l => forallb_string p l = true) (echo t).
Proof.
  intros Ht. unfold echo. destruct (is_echo_option t).
  - destruct (existsb_string _ t); by repeat constructor.
  - by apply split_lines_chars.
Qed.

Lemma map_string_ext_in p f g s :
  (forall c, p c = true -> f c = g c) ->
  forallb_string p s = true -> map_string f s = map_string g s.
Proof.
  intros H. induction s as [| c s IH]; [done |].
  intros [Hc Hs]%andb_true_iff. simpl. by rewrite (H c Hc), (IH Hs).
Qed.

Lemma map_lower_ascii s :
  forallb_string is_ascii s = true ->
  forallb_string is_ascii (map_string to_lower s) = true.
Proof.
  induction s as [| c s IH]; [done |].
  intros [Hc Hs]%andb_true_iff. simpl. by rewrite (to_lower_ascii c Hc), (IH Hs).
Qed.

(** On an ASCII title, every locale that treats ASCII as the C locale does
    gives the slug of the C locale. *)
Lemma slug_any_locale (L : Locale) t :
  ascii_compatible L -> ascii_title t = true -> slug L t = slugC t.
Proof.
  intros [Htr Hsed] Ht. unfold slug. do 3 f_equal.
  unfold sed_replace, tr_upper_lower. rewrite <- !list_fmap_compose.
  apply Forall_fmap_ext_1.
  eapply Forall_impl; [apply (echo_chars is_ascii t Ht) |].
  intros l Hl. simpl.
  rewrite (map_string_ext_in is_ascii (tr_lower L) to_lower l Htr Hl).
  apply Hsed. by apply map_lower_ascii.
Qed.

Lemma C_locale_compatible : ascii_compatible C_locale.
Proof. by split. Qed.


End SlugOutput.

(** ** The schema *)

Section Schema.
Import Zod Content SchemaShape.

Lemma z_string_OK p v s : z_string p v = OK s <-> v = VString s.
Proof. destruct v; simpl; unfold wrong_type; naive_solver. Qed.

Lemma z_date_OK p v t : z_date p v = OK t <-> v = VDate (Some t).
Proof.
  destruct v as [| | | | | [t' |] | |]; simpl; unfold wrong_type; naive_solver.
Qed.

Lemma z_optional_OK {A} (s : schema A) p v o :
  z_optional s p v = OK o <->
  match o with
  | None => v = VUndefined
  | Some a => v <> VUndefined /\ s p v = OK a
  end.
Proof.
  destruct v; simpl; try (destruct o; naive_solver);
    destruct (s p _) eqn:E; destruct o; naive_solver.
Qed.

Lemma gather_strings (f : nat -> list path_segment) items ss :
  gather (imap (fun i x => z_string (f i) x) items) = OK ss
  <-> items = VString <$> ss.
Proof.
  revert f ss. induction items as [| v items IH]; intros f ss.
  - simpl. destruct ss; naive_solver.
  - cbn [imap gather].
    specialize (IH (f ∘ S)). unfold compose in IH.
    destruct (z_string (f 0) v) eqn:Ev.
    + apply z_string_OK in Ev. subst v.
      destruct (gather (imap _ items)) eqn:Eg.
      * destruct ss as [| s ss]; [naive_solver |]. rewrite fmap_cons.
        split; intros H.
        -- injection H as -> ->. f_equal. by apply IH.
        -- injection H as -> H. apply IH in H. congruence.
      * split; [done |]. destruct ss as [| s ss]; [done |].
        rewrite fmap_cons. intros H. injection H as -> H.
        apply IH in H. congruence.
    + split; [done |]. destruct ss as [| s ss]; [done |].
      rewrite fmap_cons. intros H. injection H as -> _.
      by rewrite (proj2 (z_string_OK (f 0) (VString s) s) eq_refl) in Ev.
Qed.

Lemma z_array_string_OK p v ss :
  z_array z_string p v = OK ss <-> v = VArray (VString <$> ss).
Proof.
  destruct v; simpl; unfold wrong_type; try naive_solver.
  rewrite (gather_strings (fun i => p ++ [Index i])%list). naive_solver.
Qed.

(** The object schema succeeds exactly when each of its six keys does. *)
Lemma blog_schema_OK fm e :
  blog_schema fm = OK e <->
  z_string [Key "title"] (field fm "title") = OK (title e)
  /\ z_string [Key "description"] (field fm "description") = OK (description e)
  /\ z_date [Key "pubDate"] (field fm "pubDate") = OK (pubDate e)
  /\ z_optional z_date [Key "updatedDate"] (field fm "updatedDate")
     = OK (updatedDate e)
  /\ z_optional z_string [Key "heroImage"] (field fm "heroImage")
     = OK (heroImage e)
  /\ z_optional (z_array z_string) [Key "tags"] (field fm "tags")
     = OK (tags e).
Proof.
  unfold blog_schema.
  destruct (z_string [Key "title"] _), (z_string [Key "description"] _),
    (z_date _ _), (z_optional z_date _ _), (z_optional z_string _ _),
    (z_optional (z_array z_string) _ _); destruct e; simpl;
    naive_solver.
Qed.

Lemma field_is fm k v :
  v <> VUndefined -> field fm k = v <-> fm !! k = Some v.
Proof. unfold field. destruct (fm !! k); simpl; naive_solver. Qed.

Lemma field_undefined fm k :
  field fm k = VUndefined <-> fm !! k = None \/ fm !! k = Some VUndefined.
Proof. unfold field. destruct (fm !! k); simpl; naive_solver. Qed.

Lemma absent_or_field (P : value -> Prop) fm k :
  ~ P VUndefined ->
  absent_or P (fm !! k) <-> field fm k = VUndefined \/ P (field fm k).
Proof.
  intros HP. unfold absent_or, field.
  destruct (fm !! k) as [[] |]; simpl; naive_solver.
Qed.

End Schema.

(** ** [Array.prototype.sort] with the comparator of the pages *)

Section Sorting.
Import Content Site Listing.

Local Abbreviation cmp := by_pubDate_desc.

Lemma sort_insert_perm {A} (f : A -> A -> Z) x l :
  JS.sort_insert f x l ≡ₚ x :: l.
Proof.
  induction l as [| y l IH]; simpl; [done |].
  destruct (0 <? f x y)%Z; [| done].
  rewrite IH. apply Permutation_swap.
Qed.

Lemma sorted_perm {A} (f : A -> A -> Z) l : JS.sorted f l ≡ₚ l.
Proof.
  induction l as [| x l IH]; simpl; [done |].
  unfold JS.sorted in *. by rewrite sort_insert_perm, IH.
Qed.

Lemma sort_insert_sorted x l :
  StronglySorted not_older l -> StronglySorted not_older (JS.sort_insert cmp x l).
Proof.
  induction 1 as [| y l Hl IH Hy]; simpl; [repeat constructor |].
  destruct (0 <? cmp x y)%Z eqn:E.
  - apply Z.ltb_lt in E. constructor; [done |].
    rewrite sort_insert_perm. constructor; [| done].
    unfold not_older, cmp in *. lia.
  - apply Z.ltb_ge in E. constructor; [by constructor |].
    constructor; [unfold not_older, cmp in *; lia |].
    eapply Forall_impl; [exact Hy |]. unfold not_older, cmp in *.
    intros z ?. lia.
Qed.

Lemma sorted_sorted l : StronglySorted not_older (JS.sorted cmp l).
Proof.
  induction l as [| x l IH]; [constructor |].
  by apply sort_insert_sorted.
Qed.

(** Entries of one date are never passed by an insertion. *)
Lemma sort_insert_published_at d x l :
  published_at d (JS.sort_insert cmp x l) = published_at d (x :: l).
Proof.
  unfold published_at.
  induction l as [| y l IH]; simpl; [done |].
  destruct (0 <? cmp x y)%Z eqn:E; [| done].
  apply Z.ltb_lt in E. unfold cmp in E.
  rewrite (filter_cons _ y), IH, !(filter_cons _ x), (filter_cons _ y).
  repeat case_decide; try done; lia.
Qed.

Lemma sorted_published_at d l :
  published_at d (JS.sorted cmp l) = published_at d l.
Proof.
  induction l as [| x l IH]; [done |].
  change (JS.sorted cmp (x :: l)) with (JS.sort_insert cmp x (JS.sorted cmp l)).
  rewrite sort_insert_published_at. unfold published_at in *.
  by rewrite !(filter_cons _ x), IH.
Qed.

(** An array already in the order of the listing is left as it is. *)
Lemma sorted_of_sorted l :
  StronglySorted not_older l -> JS.sorted cmp l = l.
Proof.
  induction 1 as [| x l Hl IH Hx]; [done |].
  change (JS.sorted cmp (x :: l)) with (JS.sort_insert cmp x (JS.sorted cmp l)).
  rewrite IH. destruct l as [| y l]; [done |]. simpl.
  apply Forall_cons_1 in Hx as [Hy _]. unfold not_older, cmp in *.
  by destruct (Z.ltb_spec 0 (pubDate (data y) - pubDate (data x))); [lia |].
Qed.

Lemma sorted_idempotent l : JS.sorted cmp (JS.sorted cmp l) = JS.sorted cmp l.
Proof. apply sorted_of_sorted, sorted_sorted. Qed.

(** In a listing, a later date comes at a smaller index. *)
Lemma sorted_later_first l i j a b :
  StronglySorted not_older l ->
  l !! i = Some a -> l !! j = Some b ->
  (pubDate (data b) < pubDate (data a))%Z -> i < j.
Proof.
  intros Hl. revert i j. induction Hl as [| x l Hl IH Hx]; intros i j; [done |].
  destruct i as [| i], j as [| j]; simpl.
  - intros [= ->] [= ->]. lia.
  - lia.
  - intros Ha [= ->] Hlt. exfalso.
    rewrite Forall_forall in Hx.
    assert (a ∈ l) as Hin by by eapply list_elem_of_lookup_2.
    specialize (Hx a Hin). unfold not_older in Hx. lia.
  - intros Ha Hb Hlt. specialize (IH i j Ha Hb Hlt). lia.
Qed.

Lemma NoDup_fmap_eq {A B} (f : A -> B) (l : list A) x y :
  NoDup (f <$> l) -> x ∈ l -> y ∈ l -> f x = f y -> x = y.
Proof.
  induction l as [| a l IH]; [by intros _ ?%elem_of_nil |].
  rewrite fmap_cons. intros [Ha Hl]%NoDup_cons.
  intros [-> | Hx]%elem_of_cons [-> | Hy]%elem_of_cons Hf; [done | | | by apply IH].
  - destruct Ha. rewrite Hf. by apply list_elem_of_fmap_2.
  - destruct Ha. rewrite <- Hf. by apply list_elem_of_fmap_2.
Qed.

(** When no two entries share a publish date, the listing does not depend
    on the order in which the collection holds its entries. *)
Lemma sorted_independent_of_order l1 l2 :
  l1 ≡ₚ l2 -> NoDup ((fun e => pubDate (data e)) <$> l1) ->
  JS.sorted cmp l1 = JS.sorted cmp l2.
Proof.
  intros Hp Hn.
  apply (StronglySorted_unique_strong not_older); try apply sorted_sorted.
  - intros x1 x2 H1 H2 H12 H21. unfold not_older in *.
    rewrite sorted_perm in H1. rewrite sorted_perm, <- Hp in H2.
    eapply NoDup_fmap_eq; [exact Hn | done | done |]. simpl. lia.
  - by rewrite !sorted_perm.
Qed.

End Sorting.

(** ** Arrays in the heap *)

Section Heap.
Context {A : Type}.
Implicit Types (h : JS.heap A) (r : JS.ref) (l : list A).

Lemma elements_frame r h : (JS.elements r h).2 = h.
Proof. done. Qed.

Lemma elements_lookup r h l : h !! r = Some l -> (JS.elements r h).1 = l.
Proof. unfold JS.elements. by intros ->. Qed.

Lemma Array_sort_same_ref f r h : (JS.Array_sort f r h).1 = r.
Proof. done. Qed.

Lemma Array_sort_lookup f r h l :
  h !! r = Some l -> (JS.Array_sort f r h).2 !! r = Some (JS.sorted f l).
Proof.
  intros H. unfold JS.Array_sort. cbn [snd].
  by rewrite list_lookup_alter_eq, H.
Qed.

Lemma Array_sort_other f r r' h :
  r <> r' -> (JS.Array_sort f r h).2 !! r' = h !! r'.
Proof.
  intros H. unfold JS.Array_sort. cbn [snd].
  by rewrite list_lookup_alter_ne.
Qed.

Lemma Array_slice_fresh a b r h : (JS.Array_slice a b r h).1 = length h.
Proof. done. Qed.

Lemma Array_slice_old a b r r' h l :
  h !! r' = Some l -> (JS.Array_slice a b r h).2 !! r' = Some l.
Proof.
  intros H. unfold JS.Array_slice, JS.new_array. cbn [snd].
  by apply lookup_app_l_Some.
Qed.

Lemma Array_slice_lookup a b r h l :
  h !! r = Some l ->
  (JS.Array_slice a b r h).2 !! length h = Some (take (b - a) (drop a l)).
Proof.
  intros H. unfold JS.Array_slice, JS.new_array. cbn [snd]. rewrite H.
  rewrite lookup_app_r by lia. by rewrite Nat.sub_diag.
Qed.

End Heap.

(** ** Detail routes *)

Section DetailRoutes.
Import Content Site Build.

(** C1. The route generator [getStaticPaths] yields exactly one detail
    route per entry of the collection, in the order of the collection and
    with the entry as its properties; the route of an entry has the path
    [/blog/<slug>/], so there are as many detail routes as entries. *)
Theorem detail_routes_one_per_entry (host : Host) (posts : list CollectionEntry) :
  length (getStaticPaths posts) = length posts
  /\ (forall i, getStaticPaths posts !! i
                = (fun e => {| params_slug := slug e; props := e |}) <$> posts !! i)
  /\ props <$> getStaticPaths posts = posts
  /\ route_path <$> getStaticPaths posts
     = (fun e => "/blog/" +:+ slug e +:+ "/") <$> posts
  /\ length (detail_routes host posts) = length posts
  /\ detail_routes host posts
     = (fun e => ("/blog/" +:+ slug e +:+ "/", post_page host e)) <$> posts.
Proof.
  unfold detail_routes, getStaticPaths. repeat split.
  - by rewrite length_fmap.
  - intros i. by rewrite list_lookup_fmap.
  - rewrite <- list_fmap_compose. by rewrite <- (list_fmap_id posts) at 2.
  - by rewrite <- list_fmap_compose.
  - by rewrite !length_fmap.
  - by rewrite <- list_fmap_compose.
Qed.

Example detail_routes_of_two :
  route_path <$> getStaticPaths [Samples.later; Samples.earlier]
  = ["/blog/later/"; "/blog/earlier/"].
Proof. reflexivity. Qed.

End DetailRoutes.

(** ** The views of the collection *)

Section Views.
Import Content Site Listing.
Implicit Types (h : JS.heap CollectionEntry) (posts : JS.ref)
  (l : list CollectionEntry).

Local Abbreviation sorted_by_date := (JS.sorted by_pubDate_desc).

Example sorted_two_dates :
  sorted_by_date [Samples.earlier; Samples.later]
  = [Samples.later; Samples.earlier].
Proof. reflexivity. Qed.

Example sorted_same_day :
  sorted_by_date [Samples.same_day_b; Samples.later; Samples.same_day_a]
  = [Samples.later; Samples.same_day_b; Samples.same_day_a].
Proof. reflexivity. Qed.

(** C2, as stated, fails: two entries of the same day are listed in the
    order of the collection, here the slug [b] before the slug [a], not by
    slug ascending. *)
Lemma listing_ties_not_by_slug :
  ~ StronglySorted SpecWords.date_desc_then_slug_asc
      (sorted_by_date [Samples.same_day_b; Samples.same_day_a]).
Proof.
  intros H. apply StronglySorted_inv in H as [_ H].
  apply Forall_cons_1 in H as [[H | [_ H]] _].
  - vm_compute in H. done.
  - vm_compute in H. done.
Qed.

(** C2, amended. The listing view of the blog index is the collection
    sorted by publish date descending: it holds the same entries, no entry
    comes before one of a later date, and entries sharing a publish date
    keep the order they have in the collection (the sort is stable; there
    is no tie-break by slug). In particular an entry dated 2025-09-26
    comes before one dated 2025-09-15. *)
Theorem listing_sorted_by_date_stable (host : Host) h posts l :
  h !! posts = Some l ->
  (blog_index_page host posts h).1
    = blog_index_template host (sorted_by_date l)
  /\ sorted_by_date l ≡ₚ l
  /\ StronglySorted not_older (sorted_by_date l)
  /\ (forall d, published_at d (sorted_by_date l) = published_at d l)
  /\ (forall i j a b,
        sorted_by_date l !! i = Some a -> sorted_by_date l !! j = Some b ->
        (pubDate (data b) < pubDate (data a))%Z -> i < j).
Proof.
  intros Hl. split; [| split; [| split; [| split]]].
  - unfold blog_index_page, blog_index_frontmatter, JS.bind, JS.ret.
    destruct (JS.Array_sort by_pubDate_desc posts h) as [r h'] eqn:E.
    pose proof (Array_sort_lookup by_pubDate_desc posts h l Hl) as Hs.
    rewrite E in Hs. simpl in Hs.
    assert (r = posts) as -> by (by injection E).
    unfold JS.elements. by rewrite Hs.
  - apply sorted_perm.
  - apply sorted_sorted.
  - intros d. apply sorted_published_at.
  - intros i j a b. apply sorted_later_first, sorted_sorted.
Qed.

Lemma listing_sorted_by_date_stable_witness :
  [[Samples.earlier; Samples.later]] !! 0 = Some [Samples.earlier; Samples.later]
  /\ (blog_index_page Samples.host 0 [[Samples.earlier; Samples.later]]).1
     = blog_index_template Samples.host [Samples.later; Samples.earlier].
Proof.
  split; [reflexivity |].
  exact (proj1 (listing_sorted_by_date_stable Samples.host
                  [[Samples.earlier; Samples.later]] 0
                  [Samples.earlier; Samples.later] eq_refl)).
Defined.

(** After the sorted view is taken, the array the page holds is in another
    order than before. *)
Example sorted_view_reorders_array :
  (blog_index_frontmatter 0 [[Samples.earlier; Samples.later]]).2 !! 0
  <> [[Samples.earlier; Samples.later]] !! 0.
Proof. vm_compute. discriminate. Qed.

(** X16. On the array a page holds, no view adds, removes or alters an
    entry, and no view touches another array. "All entries" leaves the
    array as it is. The sorted view and the most-recent-3 view sort that
    array in place: afterwards it holds the same entries in the order of
    the listing (publish date descending), which is its order before
    exactly when it was already in that order; the sorted view is that
    same array, the most-recent-3 view is a new array with its first three
    entries. *)
Theorem views_keep_entries_sort_in_place h posts l :
  h !! posts = Some l ->
  JS.elements posts h = (l, h)
  /\ (let (r, h') := blog_index_frontmatter posts h in
      r = posts
      /\ h' !! posts = Some (sorted_by_date l)
      /\ forall r', r' <> posts -> h' !! r' = h !! r')
  /\ (let (r, h') := home_frontmatter posts h in
      r = length h
      /\ h' !! r = Some (take 3 (sorted_by_date l))
      /\ h' !! posts = Some (sorted_by_date l)
      /\ forall r', r' <> posts -> r' < length h -> h' !! r' = h !! r')
  /\ sorted_by_date l ≡ₚ l
  /\ (sorted_by_date l = l <-> StronglySorted not_older l).
Proof.
  intros Hl. split; [| split; [| split; [| split]]].
  - unfold JS.elements. by rewrite Hl.
  - unfold blog_index_frontmatter.
    destruct (JS.Array_sort by_pubDate_desc posts h) as [r h'] eqn:E.
    pose proof (Array_sort_lookup by_pubDate_desc posts h l Hl) as Hs.
    pose proof (fun r' => Array_sort_other by_pubDate_desc posts r' h) as Ho.
    rewrite E in Hs, Ho. injection E as <- _. auto.
  - unfold home_frontmatter, JS.bind.
    destruct (JS.Array_sort by_pubDate_desc posts h) as [r h1] eqn:E.
    pose proof (Array_sort_lookup by_pubDate_desc posts h l Hl) as Hs.
    pose proof (fun r' => Array_sort_other by_pubDate_desc posts r' h) as Ho.
    rewrite E in Hs, Ho. simpl in Hs, Ho.
    assert (r = posts) as -> by (by injection E).
    assert (length h1 = length h) as Hlen.
    { injection E as <-. apply length_alter. }
    destruct (JS.Array_slice 0 3 posts h1) as [r2 h2] eqn:E2.
    pose proof (Array_slice_lookup 0 3 posts h1 _ Hs) as H2.
    pose proof (fun r' l' => Array_slice_old 0 3 posts r' h1 l') as H3.
    rewrite E2 in H2, H3. simpl in H2, H3.
    assert (r2 = length h) as ->.
    { injection E2 as <- _. done. }
    rewrite Hlen in H2. repeat split; [done | by apply H3 |].
    intros r' Hne Hlt. rewrite <- (Ho r' (not_eq_sym Hne)).
    destruct (lookup_lt_is_Some_2 h1 r') as [l' Hl']; [lia |].
    rewrite Hl'. by apply H3.
  - apply sorted_perm.
  - split; [intros <-; apply sorted_sorted | apply sorted_of_sorted].
Qed.

Lemma views_keep_entries_sort_in_place_witness :
  [[Samples.earlier; Samples.later]] !! 0 = Some [Samples.earlier; Samples.later]
  /\ JS.elements 0 [[Samples.earlier; Samples.later]]
     = ([Samples.earlier; Samples.later], [[Samples.earlier; Samples.later]]).
Proof.
  split; [reflexivity |].
  exact (proj1 (views_keep_entries_sort_in_place
                  [[Samples.earlier; Samples.later]] 0
                  [Samples.earlier; Samples.later] eq_refl)).
Defined.

End Views.

(** ** The build *)

Section BuildFacts.
Import Zod Content Html Site Build.




Lemma load_collection_length raws es :
  load_collection raws = inr es -> length es = length raws.
Proof.
  revert es. induction raws as [| x raws IH]; intros es; simpl.
  - by intros [= <-].
  - destruct (blog_schema (frontmatter x)); [| done].
    destruct (load_collection raws); [done |].
    intros [= <-]. simpl. by rewrite (IH _ eq_refl).
Qed.

(** Writing routes one after the other is the union with the map of the
    routes, the last written route of a path winning. *)
Lemma write_routes_union (rs : list (string * list node)) d :
  foldl write_route d rs = list_to_map (reverse rs) ∪ d.
Proof.
  revert d. induction rs as [| r rs IH]; intros d; simpl.
  - by rewrite (left_id_L ∅ (∪)).
  - rewrite IH, reverse_cons, list_to_map_app. unfold write_route. simpl.
    rewrite <- (assoc_L (∪)). f_equal.
    by rewrite insert_union_singleton_l, insert_empty.
Qed.

Lemma write_routes_twice (rs : list (string * list node)) d :
  foldl write_route (foldl write_route d rs) rs = foldl write_route d rs.
Proof.
  rewrite !write_routes_union. rewrite (assoc_L (∪)).
  by rewrite (idemp_L (∪)).
Qed.

End BuildFacts.

Section BuildClaims.
Import Zod Content Html Site Build.

Example load_two_valid :
  load_collection [Samples.raw "first" Samples.complete;
                   Samples.raw "second" Samples.empty_title]
  = inr [ {| slug := "first"; body := "";
             data := {| title := "My First Blog Post"; description := "Welcome";
                        pubDate := Samples.date_2025_09_26;
                        updatedDate := None; heroImage := None;
                        tags := Some ["astro"; "nix"] |} |};
          {| slug := "second"; body := "";
             data := {| title := ""; description := "About nothing";
                        pubDate := Samples.date_2025_09_15;
                        updatedDate := None; heroImage := None;
                        tags := None |} |} ].
Proof. reflexivity. Qed.




End BuildClaims.

(** ** What the schema accepts *)

Section SchemaClaims.
Import Zod Content SchemaShape.

Example complete_frontmatter :
  blog_schema Samples.complete
  = OK {| title := "My First Blog Post"; description := "Welcome";
          pubDate := Samples.date_2025_09_26; updatedDate := None;
          heroImage := None; tags := Some ["astro"; "nix"] |}.
Proof. reflexivity. Qed.

Example bad_tag_frontmatter :
  blog_schema (<["tags" := VArray [VString "astro"; VNumber 3]]> Samples.complete)
  = INVALID [ {| code := invalid_type TString TNumber;
                 path := [Key "tags"; Index 1] |} ].
Proof. reflexivity. Qed.

Example no_pubDate_frontmatter :
  blog_schema Samples.no_pubDate
  = INVALID [ {| code := invalid_type TDate TUndefined;
                 path := [Key "pubDate"] |} ].
Proof. reflexivity. Qed.

Lemma optional_date_accepts fm k p :
  (exists o, z_optional z_date p (field fm k) = OK o)
  <-> absent_or is_valid_date (fm !! k).
Proof.
  unfold field, absent_or, is_valid_date.
  destruct (fm !! k) as [[| | | | | [t |] | |] |]; simpl; unfold wrong_type;
    naive_solver.
Qed.

Lemma optional_string_accepts fm k p :
  (exists o, z_optional z_string p (field fm k) = OK o)
  <-> absent_or is_string (fm !! k).
Proof.
  unfold field, absent_or, is_string.
  destruct (fm !! k) as [[] |]; simpl; unfold wrong_type; naive_solver.
Qed.

Lemma optional_tags_accept fm k p :
  (exists o, z_optional (z_array z_string) p (field fm k) = OK o)
  <-> absent_or is_string_array (fm !! k).
Proof.
  unfold field, absent_or, is_string_array.
  destruct (fm !! k) as [[| | | | | | items |] |]; simpl; unfold wrong_type;
    try naive_solver.
  change (gather _) with (z_array z_string p (VArray items)).
  destruct (z_array z_string p (VArray items)) as [ss | l] eqn:E.
  - apply z_array_string_OK in E. naive_solver.
  - split; [naive_solver |]. intros [ss Hss].
    apply (z_array_string_OK p) in Hss. congruence.
Qed.

Lemma required_string fm k p s :
  z_string p (field fm k) = OK s <-> fm !! k = Some (VString s).
Proof. rewrite z_string_OK. by apply field_is. Qed.

Lemma required_date fm k p t :
  z_date p (field fm k) = OK t <-> fm !! k = Some (VDate (Some t)).
Proof. rewrite z_date_OK. by apply field_is. Qed.

Lemma optional_absent {A} (s : schema A) fm k p o :
  fm !! k = None -> z_optional s p (field fm k) = OK o -> o = None.
Proof. unfold field. intros ->. simpl. congruence. Qed.

(** C3, as stated, fails: a mapping whose title is the empty string is
    accepted. *)
Lemma empty_title_accepted :
  ~ (is_ok (blog_schema Samples.empty_title) = true
     <-> SpecWords.required_fields_present Samples.empty_title).
Proof.
  intros [H _]. destruct (H eq_refl) as [(t & Ht & Hne) _].
  vm_compute in Ht. congruence.
Qed.

(** C3, amended. The schema returns a typed entry exactly when [title] is
    a string (possibly empty), [description] is a string, [pubDate] is a
    valid date, and each of [updatedDate], [heroImage] and [tags] is either
    absent or, in this order, a valid date, a string, an array of strings.
    The entry carries the values of the mapping; an optional field that is
    missing is absent in the entry: no update date, no hero image, and no
    tags rather than an empty set of tags. *)
Theorem blog_schema_accepts_exactly (fm : gmap string value) :
  (is_ok (blog_schema fm) = true <-> schema_accepts fm)
  /\ (forall e, blog_schema fm = OK e ->
        fm !! "title" = Some (VString (title e))
        /\ fm !! "description" = Some (VString (description e))
        /\ fm !! "pubDate" = Some (VDate (Some (pubDate e)))
        /\ (fm !! "updatedDate" = None -> updatedDate e = None)
        /\ (fm !! "heroImage" = None -> heroImage e = None)
        /\ (fm !! "tags" = None -> tags e = None)).
Proof.
  split.
  - transitivity (exists e, blog_schema fm = OK e).
    { destruct (blog_schema fm); simpl; naive_solver. }
    unfold schema_accepts.
    rewrite <- (optional_date_accepts fm "updatedDate" [Key "updatedDate"]),
      <- (optional_string_accepts fm "heroImage" [Key "heroImage"]),
      <- (optional_tags_accept fm "tags" [Key "tags"]).
    split.
    + intros [e He]. apply blog_schema_OK in He as (Ht & Hd & Hp & Hu & Hh & Hg).
      apply required_string in Ht, Hd. apply required_date in Hp.
      repeat split; eexists; eassumption.
    + intros ((t & Ht) & (d & Hd) & (p & Hp) & (u & Hu) & (i & Hi) & (g & Hg)).
      exists {| title := t; description := d; pubDate := p; updatedDate := u;
                heroImage := i; tags := g |}.
      apply blog_schema_OK. simpl.
      by rewrite required_string, required_string, required_date.
  - intros e (Ht & Hd & Hp & Hu & Hh & Hg)%blog_schema_OK.
    apply required_string in Ht, Hd. apply required_date in Hp.
    repeat split; try done; intros Hn; by eapply optional_absent.
Qed.

Lemma blog_schema_accepts_exactly_witness :
  schema_accepts Samples.empty_title.
Proof.
  exact (proj1 (proj1 (blog_schema_accepts_exactly Samples.empty_title))
           eq_refl).
Defined.

End SchemaClaims.

(** ** Slugs and post files *)

Section SlugClaims.
Import Shell SlugShape BlogScript Site.

Local Abbreviation slugC := (slug C_locale).
Local Abbreviation writable := (fun _ : string => true).

Example slug_first_post :
  slugC "My First Blog Post" = "my-first-blog-post".
Proof. reflexivity. Qed.

Example slug_punctuation : slugC "  Hello,   World!! " = "hello-world".
Proof. reflexivity. Qed.

(** A title that [echo] reads as an option gives the empty slug, and a
    newline in a title stays in the slug: [sed] works line by line. *)
Example slug_of_echo_option :
  slugC "-n" = "" /\ SlugRule.normalized "-n" = "n".
Proof. split; reflexivity. Qed.

Example slug_of_two_lines :
  slugC (String "a" (String newline "b")) = String "a" (String newline "b")
  /\ SlugRule.normalized (String "a" (String newline "b")) = "a-b".
Proof. split; reflexivity. Qed.

(** A byte outside ASCII is replaced in the C locale and stays in the slug
    in a locale whose [sed] does not match it. *)
Example slug_of_other_byte :
  slugC (String "a" (String "255" "b")) = "a-b"
  /\ slug Samples.keeping_locale (String "a" (String "255" "b"))
     = String "a" (String "255" "b").
Proof. split; reflexivity. Qed.

Lemma keeping_locale_compatible : ascii_compatible Samples.keeping_locale.
Proof.
  split; [done |]. intros l Hl. simpl.
  apply (map_string_ext_in is_ascii); [| done]. by intros c ->.
Qed.

Example new_post_first :
  new_post C_locale writable "My First Blog Post" "2025-01-15" ∅
  = {| status := 0;
       stdout := ["Created new post: src/content/blog/my-first-blog-post.md"];
       files := {[ "src/content/blog/my-first-blog-post.md"
                   := post_template "My First Blog Post" "2025-01-15" ]} |}.
Proof. reflexivity. Qed.

Example new_post_usage :
  new_post C_locale writable "" "2025-01-15" ∅
  = {| status := 1; stdout := ["Usage: blog new-post 'Post Title'"];
       files := ∅ |}.
Proof. reflexivity. Qed.

(** When the file cannot be opened, the run prints the same line and ends
    with the same status, and nothing is written. *)
Example new_post_not_written :
  new_post C_locale (fun _ => false) "My First Blog Post" "2025-01-15" ∅
  = {| status := 0;
       stdout := ["Created new post: src/content/blog/my-first-blog-post.md"];
       files := ∅ |}.
Proof. reflexivity. Qed.




(** Two titles that both normalize to [hello-world] are written to the
    same file; the second run succeeds and only its post is left. *)
Example colliding_titles_overwrite :
  slugC "Hello World" = "hello-world"
  /\ slugC "hello, world!" = "hello-world"
  /\ new_post C_locale writable "hello, world!" "2025-09-26"
       (files (new_post C_locale writable "Hello World" "2025-09-15" ∅))
     = {| status := 0;
          stdout := ["Created new post: src/content/blog/hello-world.md"];
          files := {[ "src/content/blog/hello-world.md"
                      := post_template "hello, world!" "2025-09-26" ]} |}.
Proof. repeat split. Qed.



End SlugClaims.

(** * Further properties of the code *)

(** ** The [blog] command and the files it writes *)

Section CommandFacts.
Import Shell SlugShape BlogScript BlogCommand.

Lemma string_length_app (a b : string) :
  String.length (a +:+ b) = String.length a + String.length b.
Proof. induction a as [| c a IH]; simpl; [done | by rewrite IH]. Qed.

Lemma string_app_inj_l (p a b : string) : p +:+ a = p +:+ b -> a = b.
Proof. induction p as [| c p IH]; simpl; [done |]. intros [= H]. by apply IH. Qed.

Lemma string_app_inj_r (a b s : string) : a +:+ s = b +:+ s -> a = b.
Proof.
  revert b. induction a as [| c a IH]; intros [| c' b]; simpl; [done | | |].
  - intros H. apply (f_equal String.length) in H.
    rewrite ?string_length_app in H. simpl in H.
    rewrite ?string_length_app in H. lia.
  - intros H. apply (f_equal String.length) in H.
    rewrite ?string_length_app in H. simpl in H.
    rewrite ?string_length_app in H. lia.
  - intros [= -> H]. by rewrite (IH b H).
Qed.






End CommandFacts.

Section CommandExtras.
Import Shell SlugShape BlogScript BlogCommand.



(** A command other than [new-post], [dev], [build] and [preview], a
    missing command included, is not an error: the script prints the five
    lines of the help, returns status 0 and leaves the files alone.
    Arguments after the title are ignored by [new-post]. *)
Lemma blog_unknown_command_prints_help (sys : System) (args : list string)
    (date : string) (fs : gmap string string) :
  (positional 0 args <> "new-post" -> positional 0 args <> "dev" ->
   positional 0 args <> "build" -> positional 0 args <> "preview" ->
   blog sys args date fs = {| status := 0; stdout := help; files := fs |})
  /\ (forall t rest,
        blog sys ("new-post" :: t :: rest) date fs
        = blog sys ["new-post"; t] date fs).
Proof.
  split; [| done].
  intros H1 H2 H3 H4. unfold blog.
  apply String.eqb_neq in H1, H2, H3, H4. by rewrite H1, H2, H3, H4.
Qed.



End CommandExtras.

(** ** The slug of any title *)

Section SlugAlphabet.
Import Shell SlugShape TitleShape.

Lemma forallb_string_app p (a b : string) :
  forallb_string p (a +:+ b) = forallb_string p a && forallb_string p b.
Proof.
  induction a as [| c a IH]; simpl; [done |]. by rewrite IH, andb_assoc.
Qed.

Lemma forallb_string_impl (p q : ascii -> bool) s :
  (forall c, p c = true -> q c = true) ->
  forallb_string p s = true -> forallb_string q s = true.
Proof.
  intros Hpq. induction s as [| c s IH]; [done |]. simpl.
  intros [Hc Hs]%andb_true_iff. by rewrite (Hpq c Hc), (IH Hs).
Qed.


Lemma delete_edge_chars p s :
  forallb_string p s = true -> forallb_string p (delete_edge_hyphens s) = true.
Proof.
  destruct s as [| c s]; [done |]. unfold delete_edge_hyphens.
  intros H. destruct (is_hyphen c); apply delete_final_chars; [| done].
  by apply andb_true_iff in H as [_ ?].
Qed.

Lemma drop_trailing_empty_Forall (P : string -> Prop) ls :
  Forall P ls -> Forall P (drop_trailing_empty ls).
Proof.
  induction 1 as [| l ls Hl Hls IH]; simpl; [done |].
  destruct (drop_trailing_empty ls) as [| r rs].
  - destruct l; by repeat constructor.
  - by constructor.
Qed.

Lemma join_lines_chars ls :
  Forall (fun l => forallb_string slug_char l = true) ls ->
  forallb_string slug_or_newline (join_lines ls) = true.
Proof.
  assert (forall c, slug_char c = true -> slug_or_newline c = true) as Hsub.
  { intros c Hc. unfold slug_or_newline. unfold slug_char in Hc.
    by rewrite Hc. }
  induction 1 as [| l ls Hl Hls IH]; [done |].
  cbn [join_lines]. destruct ls as [| l' ls].
  - by apply (forallb_string_impl slug_char).
  - rewrite forallb_string_app. cbn [forallb_string].
    rewrite (forallb_string_impl slug_char _ l Hsub Hl), IH.
    by vm_compute.
Qed.

Lemma pipeline_lines_chars (input : lines) :
  Forall (fun l => forallb_string slug_char l = true)
    (sed_trim (sed_squeeze
       (sed_replace C_locale (tr_upper_lower C_locale input)))).
Proof.
  unfold sed_trim, sed_squeeze, sed_replace, tr_upper_lower.
  rewrite !Forall_fmap. apply Forall_forall. intros l _. simpl.
  apply delete_edge_chars, squeeze_chars, map_replace_chars.
Qed.

Lemma slug_or_newline_not_slash c :
  slug_or_newline c = true -> is_slash c = false.
Proof. each_ascii c. Qed.

Lemma slug_or_newline_not_dot c :
  slug_or_newline c = true -> SlugRule.is_dot c = false.
Proof. each_ascii c. Qed.

Lemma slug_or_newline_not_upper c :
  slug_or_newline c = true -> is_upper_case c = false.
Proof. each_ascii c. Qed.

(** *** Lines of hyphens *)





Lemma replaced_is_hyphen c :
  is_hyphen (replace_disallowed (to_lower c)) = negb (is_alnum c).
Proof. each_ascii c. Qed.


End SlugAlphabet.

Section SlugExtras.
Import Shell SlugShape TitleShape BlogScript.

Lemma forallb_excludes (p q : ascii -> bool) s :
  (forall c, p c = true -> q c = false) ->
  forallb_string p s = true -> existsb_string q s = false.
Proof.
  intros Hpq. induction s as [| c s IH]; [done |]. simpl.
  intros [Hc Hs]%andb_true_iff. by rewrite (Hpq c Hc), (IH Hs).
Qed.

(** X3. In a locale in which [tr] and [sed] treat ASCII text as the C
    locale does, the slug of every title of ASCII characters (several
    lines and option-like titles included) holds only the characters
    [a-z], [0-9], the hyphen and the newline: never a slash, a dot or an
    upper-case letter. The post file of such a title therefore cannot
    leave [src/content/blog/] through its slug. *)
Theorem slug_alphabet (L : Locale) (t : string) :
  ascii_compatible L -> ascii_title t = true ->
  forallb_string slug_or_newline (slug L t) = true
  /\ existsb_string is_slash (slug L t) = false
  /\ existsb_string SlugRule.is_dot (slug L t) = false
  /\ existsb_string is_upper_case (slug L t) = false.
Proof.
  intros HL Ha. rewrite (slug_any_locale L t HL Ha).
  assert (forallb_string slug_or_newline (slug C_locale t) = true) as H.
  { unfold slug, command_substitution.
    apply join_lines_chars, drop_trailing_empty_Forall, pipeline_lines_chars. }
  split_and!; [done | | |].
  - by apply (forallb_excludes _ _ _ slug_or_newline_not_slash).
  - by apply (forallb_excludes _ _ _ slug_or_newline_not_dot).
  - by apply (forallb_excludes _ _ _ slug_or_newline_not_upper).
Qed.

Lemma slug_alphabet_witness :
  existsb_string is_slash (slug C_locale "../../etc/Passwd") = false.
Proof.
  exact (proj1 (proj2 (slug_alphabet C_locale "../../etc/Passwd"
                         C_locale_compatible eq_refl))).
Defined.

Example slug_of_path_like_title :
  slug C_locale "../../etc/Passwd" = "etc-passwd".
Proof. reflexivity. Qed.



End SlugExtras.

(** ** What the schema reports *)

Section SchemaReports.
Import Zod Content SchemaKeys.

(** The issues of a failed object are those of its six keys, in the order
    of the shape. *)
Lemma blog_schema_INVALID fm l :
  blog_schema fm = INVALID l ->
  l = (issues_of (z_string [Key "title"] (field fm "title"))
       ++ issues_of (z_string [Key "description"] (field fm "description"))
       ++ issues_of (z_date [Key "pubDate"] (field fm "pubDate"))
       ++ issues_of (z_optional z_date [Key "updatedDate"] (field fm "updatedDate"))
       ++ issues_of (z_optional z_string [Key "heroImage"] (field fm "heroImage"))
       ++ issues_of (z_optional (z_array z_string) [Key "tags"] (field fm "tags")))%list.
Proof.
  unfold blog_schema.
  destruct (z_string [Key "title"] _), (z_string [Key "description"] _),
    (z_date _ _), (z_optional z_date _ _), (z_optional z_string _ _),
    (z_optional (z_array z_string) _ _); simpl; congruence.
Qed.

Lemma blog_schema_fails fm :
  is_ok (z_string [Key "title"] (field fm "title"))
  && is_ok (z_string [Key "description"] (field fm "description"))
  && is_ok (z_date [Key "pubDate"] (field fm "pubDate"))
  && is_ok (z_optional z_date [Key "updatedDate"] (field fm "updatedDate"))
  && is_ok (z_optional z_string [Key "heroImage"] (field fm "heroImage"))
  && is_ok (z_optional (z_array z_string) [Key "tags"] (field fm "tags"))
  = is_ok (blog_schema fm).
Proof.
  unfold blog_schema.
  by destruct (z_string [Key "title"] _), (z_string [Key "description"] _),
    (z_date _ _), (z_optional z_date _ _), (z_optional z_string _ _),
    (z_optional (z_array z_string) _ _).
Qed.

Lemma is_ok_false_INVALID {A} (r : result A) :
  is_ok r = false -> exists l, r = INVALID l.
Proof. destruct r; [done | by eauto]. Qed.

(** An issue of one key makes the object fail, and is among its issues. *)
Lemma blog_schema_reports fm (i : issue) :
  i ∈ (issues_of (z_string [Key "title"] (field fm "title"))
       ++ issues_of (z_string [Key "description"] (field fm "description"))
       ++ issues_of (z_date [Key "pubDate"] (field fm "pubDate"))
       ++ issues_of (z_optional z_date [Key "updatedDate"] (field fm "updatedDate"))
       ++ issues_of (z_optional z_string [Key "heroImage"] (field fm "heroImage"))
       ++ issues_of (z_optional (z_array z_string) [Key "tags"] (field fm "tags")))%list ->
  exists l, blog_schema fm = INVALID l /\ i ∈ l.
Proof.
  intros Hi. destruct (blog_schema fm) as [e | l] eqn:E.
  - exfalso. apply blog_schema_OK in E as (H1 & H2 & H3 & H4 & H5 & H6).
    rewrite H1, H2, H3, H4, H5, H6 in Hi. simpl in Hi.
    by apply elem_of_nil in Hi.
  - exists l. split; [done |]. by rewrite (blog_schema_INVALID fm l E).
Qed.

Lemma z_string_issues p v :
  getParsedType v <> TString ->
  issues_of (z_string p v)
  = [ {| code := invalid_type TString (getParsedType v); path := p |} ].
Proof. by destruct v. Qed.

Lemma z_date_issues p v :
  getParsedType v <> TDate ->
  issues_of (z_date p v)
  = [ {| code := invalid_type TDate (getParsedType v); path := p |} ].
Proof. by destruct v. Qed.

Lemma z_array_issues {A} (s : schema A) p v :
  getParsedType v <> TArray ->
  issues_of (z_array s p v)
  = [ {| code := invalid_type TArray (getParsedType v); path := p |} ].
Proof. by destruct v. Qed.

Lemma z_optional_issues {A} (s : schema A) p v :
  v <> VUndefined -> issues_of (z_optional s p v) = issues_of (s p v).
Proof. destruct v; try done; intros _; simpl; by destruct (s p _). Qed.

Lemma gather_cons_issues {A} (r : result A) rs :
  issues_of (gather (r :: rs)) = (issues_of r ++ issues_of (gather rs))%list.
Proof. simpl. by destruct r, (gather rs). Qed.

Lemma gather_cons_ok {A} (r : result A) rs :
  is_ok (gather (r :: rs)) = is_ok r && is_ok (gather rs).
Proof. simpl. by destruct r, (gather rs). Qed.

(** An item that is not a string has its issue, at its index. *)
Lemma gather_issue_at (f : nat -> list path_segment) items n v :
  items !! n = Some v -> getParsedType v <> TString ->
  {| code := invalid_type TString (getParsedType v); path := f n |}
  ∈ issues_of (gather (imap (fun i x => z_string (f i) x) items)).
Proof.
  revert f n. induction items as [| x items IH]; intros f n; [done |].
  cbn [imap]. rewrite gather_cons_issues. destruct n as [| n]; simpl.
  - intros [= ->] Hv. rewrite (z_string_issues _ _ Hv). set_solver.
  - intros Hn Hv. apply elem_of_app. right.
    apply (IH (f ∘ S) n Hn Hv).
Qed.

(** Every issue of the items is the issue of an item that is not a
    string. *)
Lemma gather_issue_inv (f : nat -> list path_segment) items i :
  i ∈ issues_of (gather (imap (fun i x => z_string (f i) x) items)) ->
  exists n v, items !! n = Some v /\ getParsedType v <> TString
    /\ i = {| code := invalid_type TString (getParsedType v); path := f n |}.
Proof.
  revert f. induction items as [| x items IH]; intros f.
  - simpl. by intros ?%elem_of_nil.
  - cbn [imap]. rewrite gather_cons_issues. intros [Hi | Hi]%elem_of_app.
    + exists 0, x. destruct x; simpl in Hi;
        try (apply list_elem_of_singleton in Hi; by subst i);
        by apply elem_of_nil in Hi.
    + destruct (IH (f ∘ S) Hi) as (n & v & Hn & Hv & ->).
      by exists (S n), v.
Qed.

Lemma gather_fails_nonempty (f : nat -> list path_segment) items :
  is_ok (gather (imap (fun i x => z_string (f i) x) items)) = false ->
  issues_of (gather (imap (fun i x => z_string (f i) x) items)) <> [].
Proof.
  revert f. induction items as [| x items IH]; intros f; [done |].
  cbn [imap]. rewrite gather_cons_ok, gather_cons_issues.
  intros [Hx | Hr]%andb_false_iff.
  - destruct x; try done; simpl; discriminate.
  - specialize (IH (f ∘ S) Hr). intros [_ ?]%app_eq_nil. done.
Qed.

End SchemaReports.

Section SchemaPaths.
Import Zod Content SchemaKeys.

Lemma z_string_paths p v i : i ∈ issues_of (z_string p v) -> path i = p.
Proof.
  destruct v; simpl; try (intros ->%list_elem_of_singleton; done).
  by intros ?%elem_of_nil.
Qed.

Lemma z_date_paths p v i : i ∈ issues_of (z_date p v) -> path i = p.
Proof.
  destruct v as [| | | | | [t |] | |]; simpl;
    try (intros ->%list_elem_of_singleton; done).
  by intros ?%elem_of_nil.
Qed.

Lemma z_optional_sub {A} (s : schema A) p v i :
  i ∈ issues_of (z_optional s p v) -> i ∈ issues_of (s p v).
Proof.
  destruct v; try (by intros ?%elem_of_nil); simpl; by destruct (s p _).
Qed.

Lemma z_array_string_paths p v i :
  i ∈ issues_of (z_array z_string p v) ->
  path i = p
  \/ exists n x, v = VArray x /\ path i = (p ++ [Index n])%list
       /\ exists w, x !! n = Some w /\ getParsedType w <> TString.
Proof.
  destruct v; simpl; try (intros ->%list_elem_of_singleton; by left).
  intros (n & w & Hn & Hw & ->)%(gather_issue_inv (fun i => p ++ [Index i])%list).
  right. exists n, items. eauto.
Qed.

Lemma z_string_fails p v :
  is_ok (z_string p v) = false -> issues_of (z_string p v) <> [].
Proof. by destruct v. Qed.

Lemma z_date_fails p v :
  is_ok (z_date p v) = false -> issues_of (z_date p v) <> [].
Proof. by destruct v as [| | | | | [t |] | |]. Qed.

Lemma z_array_string_fails p v :
  is_ok (z_array z_string p v) = false ->
  issues_of (z_array z_string p v) <> [].
Proof.
  destruct v; try done. simpl.
  apply (gather_fails_nonempty (fun i => p ++ [Index i])%list).
Qed.

Lemma z_optional_fails {A} (s : schema A) p v :
  (is_ok (s p v) = false -> issues_of (s p v) <> []) ->
  is_ok (z_optional s p v) = false -> issues_of (z_optional s p v) <> [].
Proof.
  intros Hs. destruct v; try done; simpl in *; destruct (s p _); simpl in *;
    try done; intros; by apply Hs.
Qed.

Lemma field_insert_ne fm k k' v : k <> k' -> field (<[k := v]> fm) k' = field fm k'.
Proof. intros H. unfold field. by rewrite lookup_insert_ne. Qed.

Lemma field_delete_ne fm k k' : k <> k' -> field (delete k fm) k' = field fm k'.
Proof. intros H. unfold field. by rewrite lookup_delete_ne. Qed.

End SchemaPaths.

Section SchemaExtras.
Import Zod Content SchemaKeys.

(** X5. The schema reads its six keys only: adding, changing or removing
    any other key of the frontmatter changes neither the verdict nor the
    entry nor the issues. *)
Theorem blog_schema_ignores_other_keys (fm : gmap string value) (k : string)
    (v : value) :
  k ∉ keys ->
  blog_schema (<[k := v]> fm) = blog_schema fm
  /\ blog_schema (delete k fm) = blog_schema fm.
Proof.
  intros Hk.
  assert (forall k', k' ∈ keys -> k <> k') as Hne.
  { intros k' Hk' ->. done. }
  assert (forall k', k' ∈ keys -> field (<[k := v]> fm) k' = field fm k') as Hi.
  { intros k' Hk'. by apply field_insert_ne, Hne. }
  assert (forall k', k' ∈ keys -> field (delete k fm) k' = field fm k') as Hd.
  { intros k' Hk'. by apply field_delete_ne, Hne. }
  unfold blog_schema.
  rewrite !Hi, !Hd; try done; unfold keys, shape; simpl; set_solver.
Qed.

Lemma blog_schema_ignores_other_keys_witness :
  blog_schema (<["draft" := VBoolean true]> Samples.complete)
  = blog_schema Samples.complete.
Proof.
  refine (proj1 (blog_schema_ignores_other_keys Samples.complete "draft"
                   (VBoolean true) _)).
  unfold keys, shape. simpl. intros H.
  repeat (apply elem_of_cons in H as [H | H]; [discriminate H |]).
  by apply elem_of_nil in H.
Defined.

(** X6. A key of the schema whose value has another type than the schema
    asks for makes the entry invalid, and the error holds the issue of
    that key, with the expected type and the type found. This covers a
    required key that is missing (found: undefined), a date given as a
    string, and an optional key set to null; an optional key is only
    excused when it is undefined. Each such key is reported, whatever is
    wrong with the others. *)
Theorem wrong_value_is_reported (fm : gmap string value) (k : string)
    (T : parsed_type) (opt : bool) :
  (k, T, opt) ∈ shape ->
  getParsedType (field fm k) <> T ->
  (opt = true -> field fm k <> VUndefined) ->
  exists l, blog_schema fm = INVALID l /\ type_issue k T (field fm k) ∈ l.
Proof.
  intros Hk HT Hopt. apply blog_schema_reports. unfold type_issue.
  unfold shape in Hk.
  repeat (apply elem_of_cons in Hk as [[= -> -> ->] | Hk]);
    [ | | | | | | by apply elem_of_nil in Hk ].
  - rewrite (z_string_issues _ _ HT). set_solver.
  - rewrite (z_string_issues [Key "description"] _ HT). set_solver.
  - rewrite (z_date_issues _ _ HT). set_solver.
  - rewrite (z_optional_issues z_date _ _ (Hopt eq_refl)),
      (z_date_issues _ _ HT). set_solver.
  - rewrite (z_optional_issues z_string [Key "heroImage"] _ (Hopt eq_refl)),
      (z_string_issues [Key "heroImage"] _ HT). set_solver.
  - rewrite (z_optional_issues (z_array z_string) _ _ (Hopt eq_refl)),
      (z_array_issues _ _ _ HT). set_solver.
Qed.

Lemma wrong_value_is_reported_witness :
  exists l, blog_schema (<["tags" := VNull]> Samples.no_title) = INVALID l
    /\ type_issue "title" TString VUndefined ∈ l
    /\ type_issue "tags" TArray VNull ∈ l.
Proof.
  destruct (wrong_value_is_reported (<["tags" := VNull]> Samples.no_title)
              "title" TString false) as (l & Hl & Ht).
  - unfold shape. set_solver.
  - discriminate.
  - discriminate.
  - destruct (wrong_value_is_reported (<["tags" := VNull]> Samples.no_title)
                "tags" TArray true) as (l' & Hl' & Hg).
    + unfold shape. set_solver.
    + discriminate.
    + discriminate.
    + exists l. rewrite Hl in Hl'. injection Hl' as <-. done.
Defined.

End SchemaExtras.

Section SchemaIssueExtras.
Import Zod Content SchemaKeys.

Lemma issue_of_key fm l i :
  blog_schema fm = INVALID l -> i ∈ l ->
  (path i = [Key "title"] \/ path i = [Key "description"]
   \/ path i = [Key "pubDate"] \/ path i = [Key "updatedDate"]
   \/ path i = [Key "heroImage"] \/ path i = [Key "tags"])
  \/ exists n x, field fm "tags" = VArray x
       /\ path i = [Key "tags"; Index n]
       /\ exists w, x !! n = Some w /\ getParsedType w <> TString.
Proof.
  intros Hl Hi. rewrite (blog_schema_INVALID fm l Hl) in Hi.
  repeat (apply elem_of_app in Hi as [Hi | Hi]).
  - apply z_string_paths in Hi. tauto.
  - apply z_string_paths in Hi. tauto.
  - apply z_date_paths in Hi. tauto.
  - apply z_optional_sub, z_date_paths in Hi. tauto.
  - apply z_optional_sub, z_string_paths in Hi. tauto.
  - apply z_optional_sub, z_array_string_paths in Hi
      as [Hi | (n & x & Hx & Hp & Hw)]; [tauto |].
    right. exists n, x. done.
Qed.

(** X7. A failed validation always says why: the error holds at least one
    issue, and every issue is at a key of the schema, or at an index under
    [tags]. No issue is ever reported for a key outside the schema. *)
Theorem schema_failure_names_keys (fm : gmap string value) (l : list issue) :
  blog_schema fm = INVALID l ->
  l <> []
  /\ forall i, i ∈ l ->
       exists k rest, path i = Key k :: rest /\ k ∈ keys
         /\ (rest = [] \/ exists n, k = "tags" /\ rest = [Index n]).
Proof.
  intros Hl. split.
  - assert (is_ok (blog_schema fm) = false) as Hf by by rewrite Hl.
    rewrite <- blog_schema_fails in Hf.
    intros Hnil. rewrite (blog_schema_INVALID fm l Hl) in Hnil.
    apply app_eq_nil in Hnil as [N1 Hnil]. apply app_eq_nil in Hnil as [N2 Hnil].
    apply app_eq_nil in Hnil as [N3 Hnil]. apply app_eq_nil in Hnil as [N4 Hnil].
    apply app_eq_nil in Hnil as [N5 N6].
    repeat (apply andb_false_iff in Hf as [Hf | Hf]).
    + by apply z_string_fails in Hf.
    + by apply z_string_fails in Hf.
    + by apply z_date_fails in Hf.
    + apply z_optional_fails in Hf; [done | apply z_date_fails].
    + apply z_optional_fails in Hf; [done | apply z_string_fails].
    + apply z_optional_fails in Hf; [done | apply z_array_string_fails].
  - intros i Hi. unfold keys, shape. simpl.
    destruct (issue_of_key fm l i Hl Hi)
      as [[H | [H | [H | [H | [H | H]]]]] | (n & x & _ & H & _)];
      rewrite H; do 2 eexists; (split; [reflexivity |]);
      (split; [set_solver | eauto]).
Qed.

Lemma schema_failure_names_keys_witness :
  [ {| code := invalid_type TDate TUndefined; path := [Key "pubDate"] |} ]
  <> [].
Proof.
  exact (proj1 (schema_failure_names_keys Samples.no_pubDate _ eq_refl)).
Defined.

(** X8. With [tags] an array, the error holds an issue at
    [tags], index [n], exactly when the item at index [n] is not a string;
    the issue names the type found there. One item of the wrong type is
    enough to reject the entry, and every such item is reported. *)
Theorem bad_tags_reported_at_their_index (fm : gmap string value)
    (items : list value) :
  fm !! "tags" = Some (VArray items) ->
  (forall n v, items !! n = Some v -> getParsedType v <> TString ->
     exists l, blog_schema fm = INVALID l
       /\ {| code := invalid_type TString (getParsedType v);
             path := [Key "tags"; Index n] |} ∈ l)
  /\ (forall l i n, blog_schema fm = INVALID l -> i ∈ l ->
        path i = [Key "tags"; Index n] ->
        exists v, items !! n = Some v /\ getParsedType v <> TString).
Proof.
  intros Hg.
  assert (field fm "tags" = VArray items) as Hf.
  { unfold field. by rewrite Hg. }
  split.
  - intros n v Hn Hv. apply blog_schema_reports.
    rewrite Hf. cbn [z_optional z_array].
    pose proof (gather_issue_at (fun i => [Key "tags"] ++ [Index i])%list
                  items n v Hn Hv) as Hi.
    destruct (gather _); simpl in Hi |- *; set_solver.
  - intros l i n Hl Hi Hp.
    destruct (issue_of_key fm l i Hl Hi)
      as [[H | [H | [H | [H | [H | H]]]]] | (m & x & Hx & H & w & Hw & Hs)];
      rewrite H in Hp; try discriminate Hp.
    injection Hp as ->. rewrite Hf in Hx. injection Hx as <-. eauto.
Qed.

Lemma bad_tags_reported_at_their_index_witness :
  exists l,
    blog_schema (<["tags" := VArray [VString "astro"; VNumber 3]]> Samples.complete)
    = INVALID l
    /\ {| code := invalid_type TString TNumber;
          path := [Key "tags"; Index 1] |} ∈ l.
Proof.
  exact (proj1 (bad_tags_reported_at_their_index
                  (<["tags" := VArray [VString "astro"; VNumber 3]]> Samples.complete)
                  [VString "astro"; VNumber 3] eq_refl)
           1 (VNumber 3) eq_refl ltac:(discriminate)).
Defined.

End SchemaIssueExtras.

(** ** The pages on an array of entries *)

Section PageRuns.
Import Content Html Site Listing Links.
Implicit Types (h : JS.heap CollectionEntry) (posts : JS.ref)
  (l : list CollectionEntry).

Local Abbreviation sorted_by_date := (JS.sorted by_pubDate_desc).

Lemma blog_index_page_run (host : Host) h posts l :
  h !! posts = Some l ->
  blog_index_page host posts h
  = (blog_index_template host (sorted_by_date l),
     alter sorted_by_date posts h).
Proof.
  intros Hl. unfold blog_index_page, blog_index_frontmatter, JS.bind, JS.ret,
    JS.Array_sort, JS.elements.
  by rewrite list_lookup_alter_eq, Hl.
Qed.

Lemma home_page_run (host : Host) h posts l :
  h !! posts = Some l ->
  home_page host posts h
  = (home_template host (take 3 (sorted_by_date l)),
     (alter sorted_by_date posts h ++ [take 3 (sorted_by_date l)])%list).
Proof.
  intros Hl. unfold home_page, home_frontmatter, JS.bind, JS.ret,
    JS.Array_sort, JS.Array_slice, JS.new_array, JS.elements.
  rewrite list_lookup_alter_eq, Hl. cbn [fmap option_fmap option_map default drop].
  rewrite lookup_app_r by lia. by rewrite Nat.sub_diag.
Qed.

Lemma alter_sorted_twice h posts :
  alter sorted_by_date posts (alter sorted_by_date posts h)
  = alter sorted_by_date posts h.
Proof.
  apply list_eq. intros i. rewrite !list_lookup_alter.
  repeat case_decide; try done.
  destruct (h !! posts) as [l |]; [| done]. simpl.
  by rewrite sorted_idempotent.
Qed.

Local Arguments hrefs : simpl never.

Lemma hrefs_Element tag attrs children :
  hrefs (Element tag attrs children)
  = ((if String.eqb tag "a"
      then match attribute "href" attrs with
           | Some target => [target]
           | None => []
           end
      else []) ++ flat_map hrefs children)%list.
Proof. reflexivity. Qed.

Lemma hrefs_Text s : hrefs (Text s) = [].
Proof. reflexivity. Qed.

Ltac hrefs_of_elements :=
  repeat (rewrite ?hrefs_Element, ?hrefs_Text; simpl).

Lemma hrefs_tag_spans (ts : list string) :
  flat_map hrefs (tag_span <$> ts) = [].
Proof.
  induction ts as [| t ts IH]; [done |].
  rewrite fmap_cons. cbn [flat_map]. rewrite IH. reflexivity.
Qed.

Lemma hrefs_post_item (host : Host) e : hrefs (post_item host e) = [post_href e].
Proof.
  unfold post_item. destruct (tags (data e)); hrefs_of_elements;
    rewrite ?hrefs_tag_spans; reflexivity.
Qed.

Lemma hrefs_post_card (host : Host) e : hrefs (post_card host e) = [post_href e].
Proof. reflexivity. Qed.

Lemma hrefs_post_items (host : Host) l :
  flat_map hrefs (post_item host <$> l) = post_href <$> l.
Proof.
  induction l as [| e l IH]; [done |].
  rewrite !fmap_cons. cbn [flat_map]. by rewrite hrefs_post_item, IH.
Qed.

Lemma hrefs_post_cards (host : Host) l :
  flat_map hrefs (post_card host <$> l) = post_href <$> l.
Proof.
  induction l as [| e l IH]; [done |].
  rewrite !fmap_cons. cbn [flat_map]. by rewrite hrefs_post_card, IH.
Qed.

Lemma BaseLayout_hrefs (host : Host) title description slot :
  page_hrefs (BaseLayout host title description slot)
  = (nav_hrefs ++ flat_map hrefs slot)%list.
Proof.
  unfold page_hrefs, BaseLayout. cbn [flat_map].
  hrefs_of_elements. by rewrite !app_nil_r.
Qed.

Lemma blog_index_hrefs (host : Host) l :
  page_hrefs (blog_index_template host l)
  = (nav_hrefs ++ (post_href <$> l))%list.
Proof.
  unfold blog_index_template. rewrite BaseLayout_hrefs. f_equal.
  destruct (0 <? length l)%nat eqn:E.
  - cbn [flat_map]. hrefs_of_elements.
    by rewrite hrefs_post_items, !app_nil_r.
  - by destruct l.
Qed.

Lemma home_hrefs (host : Host) l :
  page_hrefs (home_template host l)
  = (nav_hrefs ++ (post_href <$> l)
     ++ (if (0 <? length l)%nat then ["/blog"] else []))%list.
Proof.
  unfold home_template. rewrite BaseLayout_hrefs. f_equal.
  destruct (0 <? length l)%nat eqn:E.
  - cbn [flat_map]. hrefs_of_elements.
    by rewrite hrefs_post_cards, !app_nil_r.
  - by destruct l.
Qed.

Lemma routes_are_hrefs l :
  route_path <$> getStaticPaths l = post_href <$> l.
Proof. unfold getStaticPaths. by rewrite <- list_fmap_compose. Qed.

End PageRuns.

Section PageExtras.
Import Content Html Site Listing Links.
Implicit Types (h : JS.heap CollectionEntry) (posts : JS.ref)
  (l : list CollectionEntry).

Local Abbreviation sorted_by_date := (JS.sorted by_pubDate_desc).

Lemma elem_of_take_sub {A} (x : A) n (k : list A) : x ∈ take n k -> x ∈ k.
Proof.
  intros (i & Hi & _)%elem_of_take. by eapply list_elem_of_lookup_2.
Qed.

(** X9. The home page shows the three most recent entries, or all of them
    when there are fewer: it renders the first three entries of the
    listing, in its order, and no entry it leaves out is of a later date
    than an entry it shows. Shown and left-out entries together are the
    entries of the collection. *)
Theorem home_shows_most_recent (host : Host) h posts l :
  h !! posts = Some l ->
  (home_page host posts h).1 = home_template host (take 3 (sorted_by_date l))
  /\ length (take 3 (sorted_by_date l)) = min 3 (length l)
  /\ (forall a b, a ∈ take 3 (sorted_by_date l) ->
                  b ∈ drop 3 (sorted_by_date l) ->
                  (pubDate (data b) <= pubDate (data a))%Z)
  /\ (take 3 (sorted_by_date l) ++ drop 3 (sorted_by_date l))%list ≡ₚ l.
Proof.
  intros Hl. split_and!.
  - by rewrite (home_page_run host h posts l Hl).
  - rewrite length_take. by rewrite (Permutation_length (sorted_perm _ l)).
  - intros a b Ha Hb.
    apply (StronglySorted_app_1_elem_of not_older
             (take 3 (sorted_by_date l)) (drop 3 (sorted_by_date l))); [| done..].
    rewrite take_drop. apply sorted_sorted.
  - rewrite take_drop. apply sorted_perm.
Qed.

Lemma home_shows_most_recent_witness :
  (home_page Samples.host 0 [[Samples.earlier; Samples.later]]).1
  = home_template Samples.host [Samples.later; Samples.earlier].
Proof.
  exact (proj1 (home_shows_most_recent Samples.host
                  [[Samples.earlier; Samples.later]] 0
                  [Samples.earlier; Samples.later] eq_refl)).
Defined.

(** X10. No link from a listing is dead. The links of the blog index are
    those of the navigation followed by one link per entry, in the order
    of the listing; these post links are, up to their order, exactly the
    routes of the detail pages. The home page links to its (at most three)
    posts, each of which is a detail route, and to [/blog] when the
    collection is not empty. *)
Theorem listing_links_are_routes (host : Host) h posts l :
  h !! posts = Some l ->
  page_hrefs (blog_index_page host posts h).1
    = (nav_hrefs ++ (post_href <$> sorted_by_date l))%list
  /\ post_href <$> sorted_by_date l ≡ₚ route_path <$> getStaticPaths l
  /\ page_hrefs (home_page host posts h).1
     = (nav_hrefs ++ (post_href <$> take 3 (sorted_by_date l))
        ++ (if (0 <? length l)%nat then ["/blog"] else []))%list
  /\ (forall x, x ∈ post_href <$> take 3 (sorted_by_date l) ->
                x ∈ route_path <$> getStaticPaths l).
Proof.
  intros Hl. split_and!.
  - rewrite (blog_index_page_run host h posts l Hl). cbn [fst].
    by rewrite blog_index_hrefs.
  - by rewrite routes_are_hrefs, sorted_perm.
  - rewrite (home_page_run host h posts l Hl). cbn [fst].
    rewrite home_hrefs, length_take.
    rewrite (Permutation_length (sorted_perm by_pubDate_desc l)).
    by destruct l as [| ? [| ? [| ? ?]]].
  - intros x (e & -> & He)%list_elem_of_fmap.
    rewrite routes_are_hrefs. apply list_elem_of_fmap_2.
    apply elem_of_take_sub in He. by rewrite sorted_perm in He.
Qed.

Lemma listing_links_are_routes_witness :
  page_hrefs (blog_index_page Samples.host 0
                [[Samples.earlier; Samples.later]]).1
  = ["/"; "/"; "/blog"; "/blog/later/"; "/blog/earlier/"].
Proof.
  exact (proj1 (listing_links_are_routes Samples.host
                  [[Samples.earlier; Samples.later]] 0
                  [Samples.earlier; Samples.later] eq_refl)).
Defined.

(** X11. The pages can work on one and the same array. Once a page has
    sorted it, running the blog index or the home page on it again renders
    the same page as on the array as loaded, and the blog index then
    leaves the heap as it finds it; the static paths computed from the
    sorted array are the same routes in another order. *)
Theorem pages_can_share_the_array (host : Host) h posts l :
  h !! posts = Some l ->
  (blog_index_page host posts (home_page host posts h).2).1
    = (blog_index_page host posts h).1
  /\ (home_page host posts (blog_index_page host posts h).2).1
     = (home_page host posts h).1
  /\ blog_index_page host posts (blog_index_page host posts h).2
     = blog_index_page host posts h
  /\ getStaticPaths (sorted_by_date l) ≡ₚ getStaticPaths l.
Proof.
  intros Hl.
  assert (alter sorted_by_date posts h !! posts = Some (sorted_by_date l)) as Hs.
  { by rewrite list_lookup_alter_eq, Hl. }
  rewrite (home_page_run host h posts l Hl),
    (blog_index_page_run host h posts l Hl). cbn [fst snd].
  split_and!.
  - erewrite blog_index_page_run; [| by apply lookup_app_l_Some].
    cbn [fst]. by rewrite sorted_idempotent.
  - rewrite (home_page_run host _ posts _ Hs). cbn [fst].
    by rewrite sorted_idempotent.
  - rewrite (blog_index_page_run host _ posts _ Hs).
    by rewrite sorted_idempotent, alter_sorted_twice.
  - unfold getStaticPaths. by rewrite sorted_perm.
Qed.

Lemma pages_can_share_the_array_witness :
  blog_index_page Samples.host 0
    (blog_index_page Samples.host 0 [[Samples.earlier; Samples.later]]).2
  = blog_index_page Samples.host 0 [[Samples.earlier; Samples.later]].
Proof.
  exact (proj1 (proj2 (proj2 (pages_can_share_the_array Samples.host
                  [[Samples.earlier; Samples.later]] 0
                  [Samples.earlier; Samples.later] eq_refl)))).
Defined.

(** X12. When no two entries share a publish date, the pages do not depend
    on the order in which the array holds the entries: two arrays with the
    same entries render the same blog index and the same home page. *)
Theorem pages_independent_of_array_order (host : Host) h1 h2 p1 p2 l1 l2 :
  h1 !! p1 = Some l1 -> h2 !! p2 = Some l2 ->
  l1 ≡ₚ l2 -> NoDup ((fun e => pubDate (data e)) <$> l1) ->
  (blog_index_page host p1 h1).1 = (blog_index_page host p2 h2).1
  /\ (home_page host p1 h1).1 = (home_page host p2 h2).1.
Proof.
  intros H1 H2 Hp Hn.
  rewrite (blog_index_page_run host h1 p1 l1 H1),
    (blog_index_page_run host h2 p2 l2 H2),
    (home_page_run host h1 p1 l1 H1), (home_page_run host h2 p2 l2 H2).
  cbn [fst]. by rewrite (sorted_independent_of_order l1 l2 Hp Hn).
Qed.

Lemma pages_independent_of_array_order_witness :
  (blog_index_page Samples.host 0 [[Samples.earlier; Samples.later]]).1
  = (blog_index_page Samples.host 0 [[Samples.later; Samples.earlier]]).1.
Proof.
  refine (proj1 (pages_independent_of_array_order Samples.host
                   [[Samples.earlier; Samples.later]]
                   [[Samples.later; Samples.earlier]] 0 0
                   [Samples.earlier; Samples.later]
                   [Samples.later; Samples.earlier] eq_refl eq_refl _ _)).
  - apply Permutation_swap.
  - apply NoDup_cons. split; [| apply NoDup_singleton].
    intros H. apply list_elem_of_singleton in H. vm_compute in H.
    discriminate H.
Defined.

End PageExtras.

Section RouteExtras.
Import Content Site.

Lemma route_of_slug_inj (s1 s2 : string) :
  "/blog/" +:+ s1 +:+ "/" = "/blog/" +:+ s2 +:+ "/" -> s1 = s2.
Proof. intros H%string_app_inj_l. by apply string_app_inj_r in H. Qed.

Lemma elem_of_getStaticPaths p posts :
  p ∈ getStaticPaths posts
  <-> exists e, e ∈ posts /\ p = {| params_slug := slug e; props := e |}.
Proof.
  unfold getStaticPaths. rewrite list_elem_of_fmap. naive_solver.
Qed.

(** X13. The detail routes are pairwise distinct exactly when the slugs of
    the entries are. Every static path carries an entry of the collection
    under that entry's own slug; with distinct slugs, a route path
    determines its static path, so the page at [/blog/<slug>/] is the page
    of the one entry with that slug. *)
Theorem routes_distinct_iff_slugs_distinct (posts : list CollectionEntry) :
  (NoDup (route_path <$> getStaticPaths posts) <-> NoDup (slug <$> posts))
  /\ (forall p, p ∈ getStaticPaths posts ->
        props p ∈ posts /\ params_slug p = slug (props p))
  /\ (NoDup (slug <$> posts) ->
      forall p q, p ∈ getStaticPaths posts -> q ∈ getStaticPaths posts ->
                  route_path p = route_path q -> p = q).
Proof.
  split_and!.
  - assert (route_path <$> getStaticPaths posts
            = (fun s => "/blog/" +:+ s +:+ "/") <$> (slug <$> posts)) as ->.
    { unfold getStaticPaths. by rewrite <- !list_fmap_compose. }
    apply NoDup_fmap. intros s1 s2. apply route_of_slug_inj.
  - intros p (e & He & ->)%elem_of_getStaticPaths. done.
  - intros Hn p q (e1 & H1 & ->)%elem_of_getStaticPaths
      (e2 & H2 & ->)%elem_of_getStaticPaths Hr.
    unfold route_path in Hr. simpl in Hr. apply route_of_slug_inj in Hr.
    by rewrite (NoDup_fmap_eq slug posts e1 e2 Hn H1 H2 Hr).
Qed.

Lemma routes_distinct_iff_slugs_distinct_witness :
  NoDup (route_path <$> getStaticPaths [Samples.later; Samples.earlier]).
Proof.
  refine (proj2 (proj1 (routes_distinct_iff_slugs_distinct
                          [Samples.later; Samples.earlier])) _).
  apply NoDup_cons. split; [| apply NoDup_singleton].
  intros H. apply list_elem_of_singleton in H. discriminate H.
Defined.

End RouteExtras.

(** ** The slug as the words of the title *)

Section WordFacts.
Import Shell SlugShape TitleShape SlugWords.

Local Abbreviation nonempty := (filter (fun w : string => w <> EmptyString)).
Local Abbreviation trimmed s := (delete_edge_hyphens (squeeze_hyphens s)).
Local Abbreviation untailed s := (delete_final_hyphen (squeeze_hyphens s)).

Lemma string_app_assoc (a b c : string) : (a +:+ b) +:+ c = a +:+ (b +:+ c).
Proof.
  induction a as [| x a IH]; [reflexivity |].
  change (String x ((a +:+ b) +:+ c) = String x (a +:+ (b +:+ c))).
  by f_equal.
Qed.

Lemma join_hyphen_cons w ws : join_hyphen (w :: ws) = w +:+ hyphen_before ws.
Proof.
  revert w. induction ws as [| w' ws IH]; intros w.
  - simpl. induction w as [| c w IHw]; [reflexivity |].
    change (String c w = String c (w +:+ EmptyString)). by f_equal.
  - change (join_hyphen (w :: w' :: ws))
      with (w +:+ String hyphen (join_hyphen (w' :: ws))).
    by rewrite IH.
Qed.

Lemma fields_nonempty s : fields s <> [].
Proof.
  destruct s as [| c s]; simpl; [done |].
  destruct (is_hyphen c); [done |]. by destruct (fields s).
Qed.

(** The first field is empty exactly when the line is empty or starts with
    a hyphen. *)
Lemma fields_head s f fs :
  fields s = f :: fs ->
  (f = EmptyString <-> s = EmptyString \/ starts_with_hyphen s = true).
Proof.
  destruct s as [| c s]; simpl.
  - intros [= <- <-]. naive_solver.
  - destruct (is_hyphen c) eqn:E.
    + intros [= <- <-]. naive_solver.
    + destruct (fields s); intros [= <- <-]; naive_solver.
Qed.

Lemma squeeze_other c s :
  is_hyphen c = false ->
  squeeze_hyphens (String c s) = String c (squeeze_hyphens s).
Proof.
  intros E. destruct s as [| c' s]; [done |]. by rewrite squeeze_cons, E.
Qed.

Lemma delete_final_other c s :
  is_hyphen c = false ->
  delete_final_hyphen (String c s) = String c (delete_final_hyphen s).
Proof. intros E. destruct s as [| c' s]; simpl; by rewrite ?E. Qed.

Lemma squeeze_starts s :
  starts_with_hyphen (squeeze_hyphens s) = starts_with_hyphen s.
Proof.
  destruct s as [| c s]; [done |].
  destruct (squeeze_head c s) as [r ->]. done.
Qed.

Lemma squeeze_empty s : squeeze_hyphens s = EmptyString -> s = EmptyString.
Proof.
  destruct s as [| c s]; [done |]. destruct (squeeze_head c s) as [r ->]. done.
Qed.

(** A hyphen in front of a line does not change what is left after
    squeezing and trimming. *)
Lemma trimmed_after_hyphen s : trimmed (String hyphen s) = trimmed s.
Proof.
  destruct s as [| c s]; [done |].
  rewrite squeeze_cons. change (is_hyphen hyphen) with true. cbn [andb].
  destruct (is_hyphen c) eqn:E; [done |].
  rewrite (squeeze_other c s E). unfold delete_edge_hyphens.
  change (is_hyphen hyphen) with true. by rewrite E.
Qed.

(** What is left when only the hyphen at the end is deleted: the first
    field, then every other non-empty field after a hyphen. *)
Lemma untailed_fields s f fs :
  fields s = f :: fs ->
  untailed s = f +:+ hyphen_before (nonempty fs).
Proof.
  revert f fs. induction s as [| c s IH]; intros f fs.
  - intros [= <- <-]. done.
  - cbn [fields]. destruct (is_hyphen c) eqn:E.
    + apply is_hyphen_true in E. subst c.
      destruct (fields s) as [| g gs] eqn:Eg; [by apply fields_nonempty in Eg |].
      intros [= <- <-]. specialize (IH g gs eq_refl).
      pose proof (fields_head s g gs Eg) as Hg.
      destruct s as [| c' s].
      * injection Eg as <- <-. done.
      * rewrite squeeze_cons. change (is_hyphen hyphen) with true.
        change ("" +:+ hyphen_before (nonempty (g :: gs)))
          with (hyphen_before (nonempty (g :: gs))).
        destruct (is_hyphen c') eqn:E'; cbn [andb].
        -- rewrite IH.
           assert (g = EmptyString) as -> by (apply Hg; by right).
           by rewrite filter_cons_False by naive_solver.
        -- assert (g <> EmptyString) as Hne.
           { intros Hge. apply Hg in Hge as [? | Hge]; [done |].
             simpl in Hge. congruence. }
           rewrite filter_cons_True by done. cbn [hyphen_before].
           rewrite <- IH.
           destruct (squeeze_head c' s) as [r Hr]. rewrite Hr. done.
    + destruct (fields s) as [| g gs] eqn:Eg; [by apply fields_nonempty in Eg |].
      intros [= <- <-]. rewrite (squeeze_other c s E), (delete_final_other _ _ E).
      by rewrite (IH g gs eq_refl).
Qed.

Lemma trimmed_fields s :
  trimmed s = join_hyphen (nonempty (fields s)).
Proof.
  induction s as [| c s IH]; [done |].
  destruct (is_hyphen c) eqn:E.
  - pose proof E as ->%is_hyphen_true. rewrite trimmed_after_hyphen, IH.
    cbn [fields]. change (is_hyphen hyphen) with true. cbn iota.
    by rewrite filter_cons_False by naive_solver.
  - destruct (fields (String c s)) as [| f fs] eqn:Ef;
      [by apply fields_nonempty in Ef |].
    assert (f <> EmptyString) as Hne.
    { intros Hf. apply (fields_head _ _ _ Ef) in Hf as [? | Hf]; [done |].
      simpl in Hf. congruence. }
    rewrite filter_cons_True by done. rewrite join_hyphen_cons.
    rewrite <- (untailed_fields _ _ _ Ef).
    rewrite (squeeze_other c s E). unfold delete_edge_hyphens. by rewrite E.
Qed.

End WordFacts.

Section WordExtras.
Import Shell SlugShape TitleShape SlugWords.

Lemma map_string_app f (a b : string) :
  map_string f (a +:+ b) = map_string f a +:+ map_string f b.
Proof.
  induction a as [| c a IH]; [reflexivity |].
  change (String (f c) (map_string f (a +:+ b))
          = String (f c) (map_string f a +:+ map_string f b)).
  by f_equal.
Qed.

Lemma fields_app_hyphen (a b : string) :
  fields (a +:+ String hyphen b) = (fields a ++ fields b)%list.
Proof.
  induction a as [| c a IH]; [reflexivity |].
  change (fields (String c (a +:+ String hyphen b))
          = (fields (String c a) ++ fields b)%list).
  cbn [fields]. rewrite IH. destruct (is_hyphen c); [done |].
  destruct (fields a) as [| f fs] eqn:E; [by apply fields_nonempty in E |].
  done.
Qed.

Lemma lower_of_alnum c :
  is_alnum c = true -> replace_disallowed (to_lower c) = SlugRule.lower c.
Proof. each_ascii c. Qed.

(** The pieces of a title are the fields of its lowercased and replaced
    line. *)
Lemma pieces_fields t :
  pieces t = fields (map_string replace_disallowed (map_string to_lower t)).
Proof.
  induction t as [| c t IH]; [done |].
  cbn [pieces map_string fields]. rewrite replaced_is_hyphen.
  destruct (is_alnum c) eqn:E; cbn [negb].
  - by rewrite (lower_of_alnum c E), IH.
  - by rewrite IH.
Qed.

Lemma words_app_separator (a b : string) (c : ascii) :
  is_alnum c = false ->
  words (a +:+ String c b) = (words a ++ words b)%list.
Proof.
  intros Hc.
  assert (replace_disallowed (to_lower c) = hyphen) as Hr.
  { apply is_hyphen_true. by rewrite replaced_is_hyphen, Hc. }
  unfold words. rewrite !pieces_fields, !map_string_app. cbn [map_string].
  by rewrite Hr, fields_app_hyphen, filter_app.
Qed.

Lemma words_nonempty t : Forall (fun w => w <> EmptyString) (words t).
Proof.
  unfold words. apply Forall_forall.
  by intros w [Hne _]%list_elem_of_filter.
Qed.

Lemma hyphen_before_app (l1 l2 : list string) :
  hyphen_before (l1 ++ l2) = hyphen_before l1 +:+ hyphen_before l2.
Proof.
  induction l1 as [| w l1 IH]; [done |].
  change (String hyphen (w +:+ hyphen_before (l1 ++ l2))
          = String hyphen ((w +:+ hyphen_before l1) +:+ hyphen_before l2)).
  by rewrite IH, string_app_assoc.
Qed.

Lemma join_hyphen_app (w v : string) (l1 l2 : list string) :
  join_hyphen ((w :: l1) ++ v :: l2)
  = join_hyphen (w :: l1) +:+ String hyphen (join_hyphen (v :: l2)).
Proof.
  change ((w :: l1) ++ v :: l2)%list with (w :: (l1 ++ v :: l2))%list.
  rewrite !join_hyphen_cons, hyphen_before_app, string_app_assoc.
  reflexivity.
Qed.

Lemma join_hyphen_empty (ws : list string) :
  Forall (fun w => w <> EmptyString) ws ->
  join_hyphen ws = EmptyString -> ws = [].
Proof.
  destruct ws as [| w ws]; [done |].
  intros [Hw _]%Forall_cons. rewrite join_hyphen_cons.
  destruct w; [done | discriminate].
Qed.

Lemma ascii_title_app (a b : string) :
  ascii_title (a +:+ b) = ascii_title a && ascii_title b.
Proof. apply forallb_string_app. Qed.

(** The slug of an ASCII title that [echo] prints as it is, in the words
    of the title. *)
Lemma slug_words (L : Locale) t :
  ascii_compatible L -> ascii_title t = true -> plain_title t = true ->
  slug L t = join_hyphen (words t).
Proof.
  intros HL Ha Ht. rewrite (slug_any_locale L t HL Ha), (slug_plain t Ht).
  unfold words. rewrite pieces_fields. apply trimmed_fields.
Qed.

(** X14. In a locale in which [tr] and [sed] treat ASCII text as the C
    locale does, the slug of a one-line title of ASCII characters that
    [echo] does not read as an option is its words joined by single
    hyphens, where the words are the maximal runs of letters and digits
    of the title, lowercased. *)
Theorem slug_is_words_joined (L : Locale) (t : string) :
  ascii_compatible L -> ascii_title t = true -> plain_title t = true ->
  slug L t = join_hyphen (words t).
Proof. apply slug_words. Qed.

Lemma slug_is_words_joined_witness :
  slug Samples.keeping_locale "  Hello,   World!! "
  = join_hyphen ["hello"; "world"].
Proof.
  exact (slug_is_words_joined Samples.keeping_locale "  Hello,   World!! "
           keeping_locale_compatible eq_refl eq_refl).
Defined.

(** X15. What separates the parts of a title does not matter to the slug.
    In a locale in which [tr] and [sed] treat ASCII text as the C locale
    does, take two one-line ASCII titles that [echo] does not read as
    options, and put an ASCII character that is no letter and no digit
    between them. When the result is again no option for [echo], its slug
    is the slug of the first part, a hyphen, and the slug of the second
    part; when a part has the empty slug, it is the slug of the other
    part, without a hyphen. In particular such a character in front of a
    title or after it changes nothing. *)
Theorem separators_do_not_matter (L : Locale) (a b : string) (c : ascii) :
  ascii_compatible L ->
  ascii_title a = true -> ascii_title b = true -> is_ascii c = true ->
  is_alnum c = false ->
  plain_title a = true -> plain_title b = true ->
  plain_title (a +:+ String c b) = true ->
  slug L (a +:+ String c b)
  = if String.eqb (slug L a) EmptyString then slug L b
    else if String.eqb (slug L b) EmptyString then slug L a
    else slug L a +:+ String hyphen (slug L b).
Proof.
  intros HL Ha Hb Hc Hn Hpa Hpb Hp.
  assert (ascii_title (a +:+ String c b) = true) as Hab.
  { rewrite ascii_title_app, Ha. unfold ascii_title in Hb |- *.
    cbn [forallb_string]. by rewrite Hc, Hb. }
  rewrite (slug_words L _ HL Hab Hp), (slug_words L a HL Ha Hpa),
    (slug_words L b HL Hb Hpb), (words_app_separator a b c Hn).
  pose proof (words_nonempty a) as Hwa. pose proof (words_nonempty b) as Hwb.
  destruct (words a) as [| w l1] eqn:Ea.
  - done.
  - destruct (String.eqb_spec (join_hyphen (w :: l1)) EmptyString) as [E | _].
    { by apply (join_hyphen_empty _ Hwa) in E. }
    destruct (words b) as [| v l2] eqn:Eb.
    + by rewrite app_nil_r.
    + destruct (String.eqb_spec (join_hyphen (v :: l2)) EmptyString) as [E | _].
      { by apply (join_hyphen_empty _ Hwb) in E. }
      apply join_hyphen_app.
Qed.

Lemma separators_do_not_matter_witness :
  slug C_locale "Hello, World"
  = slug C_locale "Hello" +:+ String hyphen (slug C_locale " World").
Proof.
  exact (separators_do_not_matter C_locale "Hello" " World" ","
           C_locale_compatible eq_refl eq_refl eq_refl eq_refl
           eq_refl eq_refl eq_refl).
Defined.

End WordExtras.

(** ** Slug collisions at discovery *)

Section LoaderFacts.
Import Zod Content Site Build Loader.






End LoaderFacts.

Section LoaderClaims.
Import Zod Content Site Build Loader.

Example two_files_one_slug :
  pipeline Samples.host
    [sample_file "Hello World.md" Samples.complete;
     sample_file "hello-world.md" Samples.empty_title] ∅
  = inl (Discovery (SlugCollisionError "hello-world"
                      "Hello World.md" "hello-world.md")).
Proof. reflexivity. Qed.

Example two_files_two_slugs :
  discover [sample_file "Hello World.md" Samples.complete;
            sample_file "notes.md" Samples.empty_title]
  = inr [Samples.raw "hello-world" Samples.complete;
         Samples.raw "notes" Samples.empty_title].
Proof. reflexivity. Qed.



End LoaderClaims.

(** ** The views and the collection *)

Section ReloadClaims.
Import Content Site Build Reload.

Local Abbreviation by_date := (JS.sorted by_pubDate_desc).



Example reload_after_sorted_view :
  view_then_reload [Samples.earlier; Samples.later] sorted_by_date []
  = (([Samples.later; Samples.earlier], [Samples.earlier; Samples.later]),
     [ [Samples.later; Samples.earlier];
       [Samples.earlier; Samples.later] ]).
Proof. reflexivity. Qed.


End ReloadClaims.

(** ** The empty collection *)

Section EmptyCollection.
Import Content Html Site Build Links Texts.

(** C8. For an empty collection nothing fails. The listing page, run on
    an array without entries, shows the texts of the layout, the heading
    and the empty-state message "No posts published yet.", and links to
    no post: its only links are those of the navigation.
    [getStaticPaths] yields no static path, so no detail route is
    generated; and the build of an empty input set succeeds and writes
    the home page and that listing, and nothing else. *)
Theorem empty_collection_renders_empty_state (host : Host)
    (h : JS.heap CollectionEntry) (posts : JS.ref)
    (out : gmap string (list node)) :
  h !! posts = Some [] ->
  page_texts (blog_index_page host posts h).1
  = [ "All Blog Posts"; "My Blog"; "Home"; "Blog"; "All Blog Posts";
      "No posts published yet."; "&copy; 2025 My Blog. Built with Astro." ]
  /\ page_hrefs (blog_index_page host posts h).1 = nav_hrefs
  /\ getStaticPaths [] = []
  /\ detail_routes host [] = []
  /\ build host {| content := []; dist := out |}
     = inr {| content := [];
              dist := <["/blog/" := (blog_index_page host posts h).1]>
                        (<["/" := run_page [] (home_page host)]> out) |}.
Proof.
  intros Hh. rewrite (blog_index_page_run host h posts [] Hh).
  by split_and!.
Qed.

Lemma empty_collection_renders_empty_state_witness :
  [[]] !! 0 = Some ([] : list CollectionEntry)
  /\ page_texts (blog_index_page Samples.host 0 [[]]).1
     = [ "All Blog Posts"; "My Blog"; "Home"; "Blog"; "All Blog Posts";
         "No posts published yet."; "&copy; 2025 My Blog. Built with Astro." ].
Proof.
  split; [reflexivity |].
  exact (proj1 (empty_collection_renders_empty_state Samples.host [[]] 0 ∅
                  eq_refl)).
Defined.

End EmptyCollection.

(** ** Running the build again *)

Section BuildOrderFacts.
Import Zod Content Html Site Build.

Local Abbreviation by_date := (JS.sorted by_pubDate_desc).

(** The entries that load are the same in every loading order. *)
Lemma load_collection_perm (raws1 raws2 : list RawEntry) :
  raws1 ≡ₚ raws2 ->
  forall c1, load_collection raws1 = inr c1 ->
  exists c2, load_collection raws2 = inr c2 /\ c1 ≡ₚ c2.
Proof.
  induction 1 as [| r raws1 raws2 _ IH | r r' raws | raws1 raws2 raws3 _ IH1 _ IH2];
    intros c1.
  - intros [= <-]. by exists [].
  - cbn [load_collection]. destruct (blog_schema (frontmatter r)); [| done].
    destruct (load_collection raws1) as [| es]; [done |].
    intros [= <-]. destruct (IH es eq_refl) as (c2 & -> & Hp).
    eexists. split; [done |]. by constructor.
  - cbn [load_collection].
    destruct (blog_schema (frontmatter r')); [| done].
    destruct (blog_schema (frontmatter r)); [| done].
    destruct (load_collection raws) as [| es]; [done |].
    intros [= <-]. eexists. split; [done |]. apply Permutation_swap.
  - intros H1. destruct (IH1 c1 H1) as (c2 & H2 & Hp12).
    destruct (IH2 c2 H2) as (c3 & H3 & Hp23).
    exists c3. split; [done |]. by etrans.
Qed.

Lemma run_blog_index_page (host : Host) (c : list CollectionEntry) :
  run_page c (blog_index_page host) = blog_index_template host (by_date c).
Proof.
  unfold run_page, getCollection, JS.bind, JS.new_array. cbn [app length].
  by rewrite (blog_index_page_run host [c] 0 c eq_refl).
Qed.

Lemma run_home_page (host : Host) (c : list CollectionEntry) :
  run_page c (home_page host) = home_template host (take 3 (by_date c)).
Proof.
  unfold run_page, getCollection, JS.bind, JS.new_array. cbn [app length].
  by rewrite (home_page_run host [c] 0 c eq_refl).
Qed.

Lemma route_keys (host : Host) (c : list CollectionEntry) :
  (routes host c).*1
  = "/" :: "/blog/" :: ((fun s => "/blog/" +:+ s +:+ "/") <$> (slug <$> c)).
Proof.
  unfold routes, detail_routes, getStaticPaths. cbn [fmap list_fmap fst].
  do 2 f_equal. by rewrite <- !list_fmap_compose.
Qed.

(** With pairwise distinct slugs, no two routes have the same path. *)
Lemma route_keys_distinct (host : Host) (c : list CollectionEntry) :
  NoDup (slug <$> c) -> NoDup (routes host c).*1.
Proof.
  intros Hn. rewrite route_keys. apply NoDup_cons. split.
  - intros H. apply elem_of_cons in H as [H | H]; [discriminate H |].
    apply list_elem_of_fmap in H as (s & Hs & _). discriminate Hs.
  - apply NoDup_cons. split.
    + intros H. apply list_elem_of_fmap in H as (s & Hs & _).
      apply (string_app_inj_l "/blog/" EmptyString) in Hs.
      destruct s; discriminate Hs.
    + apply NoDup_fmap; [| done]. intros s1 s2. apply route_of_slug_inj.
Qed.

(** With pairwise distinct publish dates, the routes of a collection are
    those of the collection in any other order, up to their order. *)
Lemma routes_perm (host : Host) (c1 c2 : list CollectionEntry) :
  c1 ≡ₚ c2 -> NoDup ((fun e => pubDate (data e)) <$> c1) ->
  routes host c1 ≡ₚ routes host c2.
Proof.
  intros Hp Hn. unfold routes.
  rewrite !run_home_page, !run_blog_index_page.
  rewrite (sorted_independent_of_order c1 c2 Hp Hn).
  do 2 apply Permutation_skip.
  unfold detail_routes, getStaticPaths. by rewrite Hp.
Qed.

Lemma write_routes_perm (rs1 rs2 : list (string * list node)) d :
  NoDup rs1.*1 -> rs1 ≡ₚ rs2 ->
  foldl write_route d rs1 = foldl write_route d rs2.
Proof.
  intros Hn Hp. rewrite !write_routes_union. f_equal.
  apply list_to_map_proper.
  - by rewrite fmap_reverse, reverse_Permutation.
  - by rewrite !reverse_Permutation.
Qed.

End BuildOrderFacts.

Section BuildOrder.
Import Zod Content Html Site Build.

(** C9, as stated, fails: the same two files of one day, loaded in the
    other order on the second run, give another listing page. *)
Lemma build_depends_on_loading_order :
  [Samples.raw "first" Samples.same_day_first;
   Samples.raw "second" Samples.same_day_second]
  ≡ₚ [Samples.raw "second" Samples.same_day_second;
      Samples.raw "first" Samples.same_day_first]
  /\ exists o1 o2,
       build Samples.host
         {| content := [Samples.raw "first" Samples.same_day_first;
                        Samples.raw "second" Samples.same_day_second];
            dist := ∅ |} = inr o1
       /\ build Samples.host
            {| content := [Samples.raw "second" Samples.same_day_second;
                           Samples.raw "first" Samples.same_day_first];
               dist := ∅ |} = inr o2
       /\ dist o1 !! "/blog/" <> dist o2 !! "/blog/".
Proof.
  split; [apply Permutation_swap |].
  eexists _, _. split; [reflexivity |]. split; [reflexivity |].
  vm_compute. discriminate.
Qed.

(** C9, amended. On the same host, with the same output directory to
    start from, a second run of the build on the same files gives the
    same result as the first when the files are loaded in the same order:
    a run that failed fails again with the same error, whatever is in
    the output directory, and a run that succeeded, run again on what it
    left, succeeds and changes nothing. When the files are loaded in
    another order, a set that failed fails again and a set that
    succeeded succeeds again, and the output is identical file by file
    provided no two entries share a publish date and no two share a
    slug; entries of one publish date are listed in loading order, so
    the listing can differ between such runs. *)
Theorem build_twice_identical (host : Host) (w1 w2 : World) :
  content w1 ≡ₚ content w2 -> dist w1 = dist w2 ->
  (forall e, build host w1 = inl e ->
     (forall d, build host {| content := content w1; dist := d |} = inl e)
     /\ exists e', build host w2 = inl e')
  /\ (forall o1, build host w1 = inr o1 ->
        build host o1 = inr o1
        /\ (content w1 = content w2 -> build host w2 = inr o1)
        /\ exists c1 o2,
             load_collection (content w1) = inr c1
             /\ build host w2 = inr o2
             /\ content o2 = content w2
             /\ (NoDup ((fun e => pubDate (data e)) <$> c1) ->
                 NoDup (slug <$> c1) ->
                 dist o2 = dist o1)).
Proof.
  intros Hp Hd. split.
  - intros e. unfold build. cbn [content].
    destruct (load_collection (content w1)) as [e1 | c1] eqn:E1; [| done].
    intros [= <-]. split; [done |].
    destruct (load_collection (content w2)) as [e2 | c2] eqn:E2; [by eauto |].
    destruct (load_collection_perm _ _ (symmetry Hp) c2 E2) as (c1 & E1' & _).
    by rewrite E1 in E1'.
  - intros o1. unfold build.
    destruct (load_collection (content w1)) as [| c1] eqn:E1; [done |].
    intros Ho.
    assert (o1 = {| content := content w1;
                    dist := foldl write_route (dist w1) (routes host c1) |})
      as -> by congruence.
    clear Ho. cbn [content dist]. rewrite E1. split_and!.
    + by rewrite write_routes_twice.
    + intros Hc. by rewrite <- Hc, E1, <- Hd.
    + destruct (load_collection_perm _ _ Hp c1 E1) as (c2 & E2 & Hc).
      exists c1. rewrite E2. eexists. split_and!; [done | done | done |].
      intros Hdates Hslugs. cbn [dist]. rewrite <- Hd. symmetry.
      apply write_routes_perm; [by apply route_keys_distinct |].
      by apply routes_perm.
Qed.

Lemma build_twice_identical_witness :
  exists o1 o2,
    build Samples.host
      {| content := [Samples.raw "first" Samples.complete;
                     Samples.raw "second" Samples.empty_title];
         dist := ∅ |} = inr o1
    /\ build Samples.host
         {| content := [Samples.raw "second" Samples.empty_title;
                        Samples.raw "first" Samples.complete];
            dist := ∅ |} = inr o2
    /\ dist o2 = dist o1.
Proof.
  destruct (build_twice_identical Samples.host
              {| content := [Samples.raw "first" Samples.complete;
                             Samples.raw "second" Samples.empty_title];
                 dist := ∅ |}
              {| content := [Samples.raw "second" Samples.empty_title;
                             Samples.raw "first" Samples.complete];
                 dist := ∅ |}
              (Permutation_swap _ _ _) eq_refl) as [_ H].
  destruct (H _ eq_refl) as (_ & _ & c1 & o2 & Hc & Ho & _ & Hsame).
  injection Hc as <-.
  eexists _, o2. split; [reflexivity |]. split; [exact Ho |].
  apply Hsame.
  - apply NoDup_cons. split; [| apply NoDup_singleton].
    intros Hi. apply list_elem_of_singleton in Hi. vm_compute in Hi.
    discriminate Hi.
  - apply NoDup_cons. split; [| apply NoDup_singleton].
    intros Hi. apply list_elem_of_singleton in Hi. vm_compute in Hi.
    discriminate Hi.
Defined.

End BuildOrder.
